(** * AliceVision image cache ([src/aliceVision/image/caching.hpp])

    A shallow embedding of [CacheKey], [CacheMemoryUsage], [CacheValue] and
    [ImageCache::get] / [ImageCache::load], and the properties of the
    admission and eviction protocol.

    Conventions of the embedding.
    - A C++ [int] is a [Z] kept in the signed 32-bit range; every [int]
      operation of the source is followed by [to_int], the wrap-around of
      two's complement arithmetic.
    - [std::unordered_map<CacheKey, CacheValue>] is a [gmap]; the recency
      list [std::list<CacheKey>] is a [list], least recently used first.
    - A [std::shared_ptr] is an index into a store of control blocks; each
      block carries the strong reference count, so the aliasing between the
      slot of the cache and the handles of the callers is explicit.
    - An exception is an outcome of [get]; the state reached when it is
      thrown is kept, as C++ does not undo the mutations already made. *)

From stdpp Require Import gmap strings list fin_maps.
From Stdlib Require Import ZArith Lia.

Open Scope Z_scope.

(** ** Machine integers *)

Definition int_min : Z := - 2 ^ 31.
Definition int_max : Z := 2 ^ 31 - 1.

(** Conversion to [int]: reduction modulo 2^32 into the signed range. *)
Definition to_int (z : Z) : Z := (z + 2 ^ 31) mod 2 ^ 32 - 2 ^ 31.

(** Conversion to [std::size_t] (64 bits, unsigned). *)
Definition to_size_t (z : Z) : Z := z mod 2 ^ 64.

Definition in_int (z : Z) : Prop := int_min <= z <= int_max.

Definition int_add (a b : Z) : Z := to_int (a + b).
Definition int_sub (a b : Z) : Z := to_int (a - b).
Definition int_mul (a b : Z) : Z := to_int (a * b).
(** [a / b] on [int]: truncation towards zero. *)
Definition int_div (a b : Z) : Z := to_int (Z.quot a b).
(** [a << n] on [int]. *)
Definition int_shl (a n : Z) : Z := to_int (Z.shiftl a n).

(** ** Pixel types *)

(** [oiio::TypeDesc::BASETYPE], restricted to the two sample types of the
    supported pixel types. *)
Inductive BASETYPE : Type := UINT8 | FLOAT.

(** The six pixel types [TPix] for which [CacheValue] has a slot. *)
Inductive PixType : Type :=
  | PixUChar      (* unsigned char *)
  | PixFloat      (* float *)
  | PixRGB        (* RGBColor *)
  | PixRGBf       (* RGBfColor *)
  | PixRGBA       (* RGBAColor *)
  | PixRGBAf.     (* RGBAfColor *)

(** Modelled from the spec: [ColorTypeInfo<TPix>::size] is declared in
    [pixelTypes.hpp], which is not part of the source; a pixel encoding is
    a channel count and a sample type, and the six pixel types are one,
    three and four channels of 8-bit or floating point samples. *)
Definition ColorTypeInfo_size (T : PixType) : Z :=
  match T with
  | PixUChar | PixFloat => 1
  | PixRGB | PixRGBf => 3
  | PixRGBA | PixRGBAf => 4
  end.

(** Modelled from the spec: [ColorTypeInfo<TPix>::typeDesc], declared in
    [pixelTypes.hpp] as well; the sample type of the pixel encoding. *)
Definition ColorTypeInfo_typeDesc (T : PixType) : BASETYPE :=
  match T with
  | PixUChar | PixRGB | PixRGBA => UINT8
  | PixFloat | PixRGBf | PixRGBAf => FLOAT
  end.

(** Modelled from the spec: the byte width of a sample type (a sample is
    one byte for [UINT8] and four for [FLOAT]). *)
Definition sampleByteWidth (t : BASETYPE) : Z :=
  match t with UINT8 => 1 | FLOAT => 4 end.

(** Modelled from the spec: [sizeof(TPix)]; the pixel structs are in
    [pixelTypes.hpp]. A pixel is [channelCount] samples of
    [sampleByteWidth] bytes. *)
Definition sizeof (T : PixType) : Z :=
  ColorTypeInfo_size T * sampleByteWidth (ColorTypeInfo_typeDesc T).

(** ** CacheKey *)

Record CacheKey : Type := mkCacheKey {
  filename : string;
  nbChannels : Z;
  typeDesc : BASETYPE;
  halfSampleLevel : Z
}.

#[global] Instance BASETYPE_eq_dec : EqDecision BASETYPE.
Proof. solve_decision. Defined.

#[global] Instance PixType_eq_dec : EqDecision PixType.
Proof. solve_decision. Defined.

(** [CacheKey::operator==]: the four fields are compared. *)
#[global] Instance CacheKey_eq_dec : EqDecision CacheKey.
Proof. solve_decision. Defined.

Definition BASETYPE_code (t : BASETYPE) : bool :=
  match t with UINT8 => false | FLOAT => true end.

Definition BASETYPE_of_code (b : bool) : BASETYPE :=
  if b then FLOAT else UINT8.

Definition CacheKey_to_tuple (k : CacheKey) : string * Z * bool * Z :=
  (filename k, nbChannels k, BASETYPE_code (typeDesc k), halfSampleLevel k).

Definition CacheKey_of_tuple (t : string * Z * bool * Z) : CacheKey :=
  let '(f, n, b, l) := t in mkCacheKey f n (BASETYPE_of_code b) l.

(** The hash of [CacheKeyHasher] only serves the hash table; what the map
    needs here is that keys can be enumerated. *)
#[global] Instance CacheKey_countable : Countable CacheKey.
Proof.
  apply (inj_countable' CacheKey_to_tuple CacheKey_of_tuple).
  intros [f n [] l]; reflexivity.
Defined.

(** ** CacheMemoryUsage *)

Record CacheMemoryUsage : Type := mkCacheMemoryUsage {
  capacity : Z;
  maxSize : Z;
  nbImages : Z;
  contentSize : Z
}.

(** The constructor [CacheMemoryUsage(int capacity_MB, int maxSize_MB)]. *)
Definition CacheMemoryUsage_new (capacity_MB maxSize_MB : Z) : CacheMemoryUsage :=
  {| capacity := int_mul capacity_MB 1000000;
     maxSize := int_mul maxSize_MB 1000000;
     nbImages := 0;
     contentSize := 0 |}.

(** ** Shared pointers *)

(** The address of a control block: its index in the store. *)
Abbreviation ptr := nat (only parsing).

(** The control block of a [std::shared_ptr<Image<TPix>>], with what the
    cache observes of the image: [imageBytes] is [Image::memorySize()] and
    [use_count] is the number of shared pointers that own the image. A
    block whose count has dropped to zero stays in the store; nothing
    points to it any more. *)
Record Block : Type := mkBlock {
  imageBytes : Z;
  use_count : Z
}.

Definition add_use (d : Z) (b : Block) : Block :=
  {| imageBytes := imageBytes b; use_count := use_count b + d |}.

(** Copying a shared pointer. *)
Definition sp_copy (p : ptr) (h : list Block) : list Block := alter (add_use 1) p h.

(** Destroying a shared pointer. *)
Definition sp_drop (p : ptr) (h : list Block) : list Block := alter (add_use (-1)) p h.

(** ** CacheValue *)

(** The six shared pointers of a [CacheValue]; [None] is [nullptr]. *)
Record CacheValue : Type := mkCacheValue {
  imgUChar : option ptr;
  imgFloat : option ptr;
  imgRGB : option ptr;
  imgRGBf : option ptr;
  imgRGBA : option ptr;
  imgRGBAf : option ptr
}.

(** The private constructor [CacheValue()]: every slot is null. *)
Definition CacheValue_new : CacheValue :=
  mkCacheValue None None None None None None.

(** Modelled from the spec: the six overloads of [CacheValue::wrap] are
    declared in the source and defined in [caching.cpp], which is not part
    of it. Each one takes one buffer variant and stores it in the slot of
    that variant; all other slots remain empty. *)
Definition CacheValue_wrap (T : PixType) (img : ptr) : CacheValue :=
  match T with
  | PixUChar => mkCacheValue (Some img) None None None None None
  | PixFloat => mkCacheValue None (Some img) None None None None
  | PixRGB => mkCacheValue None None (Some img) None None None
  | PixRGBf => mkCacheValue None None None (Some img) None None
  | PixRGBA => mkCacheValue None None None None (Some img) None
  | PixRGBAf => mkCacheValue None None None None None (Some img)
  end.

(** [CacheValue::get<TPix>()]: the slot of [TPix]. *)
Definition CacheValue_get (T : PixType) (v : CacheValue) : option ptr :=
  match T with
  | PixUChar => imgUChar v
  | PixFloat => imgFloat v
  | PixRGB => imgRGB v
  | PixRGBf => imgRGBf v
  | PixRGBA => imgRGBA v
  | PixRGBAf => imgRGBAf v
  end.

(** The wrapped shared pointer of a value: its first slot that is not
    null. *)
Definition CacheValue_ptr (v : CacheValue) : option ptr :=
  match imgUChar v, imgFloat v, imgRGB v, imgRGBf v, imgRGBA v, imgRGBAf v with
  | Some p, _, _, _, _, _ => Some p
  | None, Some p, _, _, _, _ => Some p
  | None, None, Some p, _, _, _ => Some p
  | None, None, None, Some p, _, _ => Some p
  | None, None, None, None, Some p, _ => Some p
  | None, None, None, None, None, o => o
  end.

(** Modelled from the spec: [CacheValue::useCount()] is declared in the
    source and defined in [caching.cpp]; it is the use count of the wrapped
    shared pointer if there is one, otherwise 0. *)
Definition useCount (h : list Block) (v : CacheValue) : Z :=
  match CacheValue_ptr v with
  | Some p => match h !! p with Some b => use_count b | None => 0 end
  | None => 0
  end.

(** Modelled from the spec: [CacheValue::memorySize()], declared here and
    defined in [caching.cpp]; the memory size of the wrapped image if there
    is one, otherwise 0, returned as an [int]. *)
Definition memorySize (h : list Block) (v : CacheValue) : Z :=
  match CacheValue_ptr v with
  | Some p => match h !! p with Some b => to_int (imageBytes b) | None => 0 end
  | None => 0
  end.

(** Destruction of a [CacheValue]: each of its shared pointers is
    destroyed. *)
Definition CacheValue_destroy (v : CacheValue) (h : list Block) : list Block :=
  foldr (λ s h', match s with Some p => sp_drop p h' | None => h' end) h
    [imgUChar v; imgFloat v; imgRGB v; imgRGBf v; imgRGBA v; imgRGBAf v].

(** ** The cache and its environment *)

Record ImageCache : Type := mkImageCache {
  _memUsage : CacheMemoryUsage;
  _imagePtrs : gmap CacheKey CacheValue;
  (** ordered from LRU (least recently used) to MRU (most recently used) *)
  _keys : list CacheKey
}.

(** Calls to the loader, in the order they are made. *)
Inductive IOEvent : Type :=
  | EvReadImageSize (path : string)
  | EvReadImage (path : string).

(** The program state: the cache, the store of control blocks, the handles
    that callers hold (one occurrence per live shared pointer outside the
    cache) and the calls made to the loader so far. *)
Record World : Type := mkWorld {
  cache : ImageCache;
  heap : list Block;
  handles : list ptr;
  ioLog : list IOEvent
}.

(** The collaborators of [io.hpp] and [resampling.hpp], which are not part
    of the source. [readImageSize] gives the native width and height;
    [readImage T path downscale] stands for [readImage] followed by
    [downscaleImageInplace] and gives the [Image::memorySize()] of the
    image they leave. [None] is a thrown exception. *)
Record Loader : Type := mkLoader {
  readImageSize : string → option (Z * Z);
  readImage : PixType → string → Z → option Z
}.

Inductive Exception : Type :=
  | NotEnoughSpace   (* ALICEVISION_THROW_ERROR of get *)
  | OutOfRange       (* std::out_of_range of unordered_map::at *)
  | LoaderError.     (* an exception of the loader *)

(** The result of a call of [get]. [OutOfFuel] is an artefact of the
    bounded model of the [while] loop; [get_fuel_suffices] shows that it
    never occurs. *)
Inductive Outcome : Type :=
  | Returned (img : option ptr)
  | Threw (e : Exception)
  | OutOfFuel.

(** The constructor [ImageCache(capacity_MB, maxSize_MB, options)]; the
    read options are opaque to the cache and left out. *)
Definition ImageCache_new (capacity_MB maxSize_MB : Z) : ImageCache :=
  {| _memUsage := CacheMemoryUsage_new capacity_MB maxSize_MB;
     _imagePtrs := ∅;
     _keys := [] |}.

Definition World_new (capacity_MB maxSize_MB : Z) : World :=
  {| cache := ImageCache_new capacity_MB maxSize_MB;
     heap := []; handles := []; ioLog := [] |}.

Definition with_cache (c : ImageCache) (w : World) : World :=
  {| cache := c; heap := heap w; handles := handles w; ioLog := ioLog w |}.

Definition with_keys (ks : list CacheKey) (w : World) : World :=
  with_cache {| _memUsage := _memUsage (cache w);
                _imagePtrs := _imagePtrs (cache w);
                _keys := ks |} w.

Definition log_io (e : IOEvent) (w : World) : World :=
  {| cache := cache w; heap := heap w; handles := handles w;
     ioLog := ioLog w ++ [e] |}.

(** A shared pointer is returned by value to the caller: the caller now
    holds one more handle of the image. *)
Definition hand_out (img : option ptr) (w : World) : World :=
  match img with
  | Some p => {| cache := cache w; heap := sp_copy p (heap w);
                 handles := p :: handles w; ioLog := ioLog w |}
  | None => w
  end.

(** [return _imagePtrs.at(reqKey).get<TPix>();] *)
Definition fetch (T : PixType) (reqKey : CacheKey) (w : World) : Outcome * World :=
  match _imagePtrs (cache w) !! reqKey with
  | None => (Threw OutOfRange, w)
  | Some value =>
      let img := CacheValue_get T value in
      (Returned img, hand_out img w)
  end.

(** [ImageCache::load<TPix>(key)]. The image is allocated with use count
    1; once the local [img] and [value] are destroyed, the copy held by
    the map is its only owner. [unordered_map::insert] does nothing when
    the key is already mapped, in which case no owner is left. *)
Definition load (L : Loader) (T : PixType) (key : CacheKey) (w : World)
  : option Exception * World :=
  let w1 := log_io (EvReadImage (filename key)) w in
  let downscale := int_shl 1 (halfSampleLevel key) in
  match readImage L T (filename key) downscale with
  | None => (Some LoaderError, w1)
  | Some bytes =>
      let img : ptr := length (heap w1) in
      let value := CacheValue_wrap T img in
      let c := cache w1 in
      let inserted := bool_decide (_imagePtrs c !! key = None) in
      let h := heap w1 ++ [mkBlock bytes (if inserted then 1 else 0)] in
      let mu := _memUsage c in
      (None,
       {| cache :=
            {| _memUsage :=
                 {| capacity := capacity mu;
                    maxSize := maxSize mu;
                    nbImages := int_add (nbImages mu) 1;
                    contentSize := int_add (contentSize mu) (memorySize h value) |};
               _imagePtrs := if inserted then <[key := value]> (_imagePtrs c)
                             else _imagePtrs c;
               _keys := _keys c ++ [key] |};
          heap := h;
          handles := handles w1;
          ioLog := ioLog w1 |})
  end.

(** [load<TPix>(reqKey); return _imagePtrs.at(reqKey).get<TPix>();] *)
Definition load_fetch (L : Loader) (T : PixType) (reqKey : CacheKey) (w : World)
  : Outcome * World :=
  match load L T reqKey w with
  | (Some e, w') => (Threw e, w')
  | (None, w') => fetch T reqKey w'
  end.

(** The four statements that evict the entry [key] found at position [i]
    of the recency list: [_memUsage.nbImages--],
    [_memUsage.contentSize -= value.memorySize()],
    [_imagePtrs.erase(key)], [_keys.erase(it)]. *)
Definition erase_entry (i : nat) (key : CacheKey) (value : CacheValue) (w : World)
  : World :=
  let c := cache w in
  let mu := _memUsage c in
  {| cache :=
       {| _memUsage :=
            {| capacity := capacity mu;
               maxSize := maxSize mu;
               nbImages := int_sub (nbImages mu) 1;
               contentSize := int_sub (contentSize mu) (memorySize (heap w) value) |};
          _imagePtrs := delete key (_imagePtrs c);
          _keys := delete i (_keys c) |};
     heap := match _imagePtrs c !! key with
             | Some erased => CacheValue_destroy erased (heap w)
             | None => heap w
             end;
     handles := handles w;
     ioLog := ioLog w |}.

(** A scan of the recency list from the position [i], with what is left of
    the list; [_imagePtrs.at(key)] throws when the key is not mapped. *)
Inductive Scan : Type :=
  | ScanFound (i : nat) (key : CacheKey) (value : CacheValue)
  | ScanEnd
  | ScanThrew.

Fixpoint scan_from (P : CacheValue → bool) (m : gmap CacheKey CacheValue)
    (i : nat) (ks : list CacheKey) : Scan :=
  match ks with
  | [] => ScanEnd
  | key :: ks' =>
      match m !! key with
      | None => ScanThrew
      | Some value =>
          if P value then ScanFound i key value else scan_from P m (S i) ks'
      end
  end.

(** The condition of the first eviction loop:
    [value.useCount() == 1 && value.memorySize() >= missingCapacity]. *)
Definition fits_unused (h : list Block) (missingCapacity : Z) (value : CacheValue) : bool :=
  (useCount h value =? 1) && (missingCapacity <=? memorySize h value).

(** The predicate of [std::find_if] in the second eviction loop:
    [_imagePtrs.at(key).useCount() == 1]. *)
Definition unused (h : list Block) (value : CacheValue) : bool :=
  useCount h value =? 1.

(** The loop [while (missingCapacity > 0) { ... }] of [get]. The body does
    not assign [missingCapacity]. *)
Fixpoint evict_loop (fuel : nat) (missingCapacity : Z) (w : World)
  : option (option Exception * World) :=
  match fuel with
  | O => None
  | S fuel' =>
      if 0 <? missingCapacity then
        match scan_from (unused (heap w)) (_imagePtrs (cache w)) 0 (_keys (cache w)) with
        | ScanFound i key value =>
            evict_loop fuel' missingCapacity (erase_entry i key value w)
        | ScanEnd => Some (None, w)
        | ScanThrew => Some (Some OutOfRange, w)
        end
      else Some (None, w)
  end.

(** [int memSize = (width / downscale) * (height / downscale) * sizeof(TPix);]
    the product of the two [int] quotients is an [int], which is converted
    to [std::size_t] for the product with [sizeof], and the result is
    converted back to [int]. *)
Definition required_memSize (T : PixType) (width height halfSampleLevel : Z) : Z :=
  let downscale := int_shl 1 halfSampleLevel in
  to_int (to_size_t
            (to_size_t (int_mul (int_div width downscale) (int_div height downscale))
             * sizeof T)).

Definition reqKey_of (T : PixType) (path : string) (level : Z) : CacheKey :=
  mkCacheKey path (ColorTypeInfo_size T) (ColorTypeInfo_typeDesc T) level.

(** The end of [get], from [// retrieve missing capacity] on: the two
    eviction passes and the admission under [maxSize], run when the image
    does not fit in the capacity. *)
Definition admit_evicting (L : Loader) (T : PixType) (reqKey : CacheKey)
    (memSize : Z) (w0 : World) : Outcome * World :=
  let mu := _memUsage (cache w0) in
  (* retrieve missing capacity *)
  let missingCapacity := int_sub (int_add memSize (contentSize mu)) (capacity mu) in
  (* find unused image with size bigger than missing capacity;
     remove it and add image to cache *)
  match scan_from (fits_unused (heap w0) missingCapacity)
          (_imagePtrs (cache w0)) 0 (_keys (cache w0)) with
  | ScanThrew => (Threw OutOfRange, w0)
  | ScanFound i key value =>
      load_fetch L T reqKey (erase_entry i key value w0)
  | ScanEnd =>
      (* remove as few unused images as possible *)
      match evict_loop (S (length (_keys (cache w0)))) missingCapacity w0 with
      | None => (OutOfFuel, w0)
      | Some (Some e, w2) => (Threw e, w2)
      | Some (None, w2) =>
          let mu2 := _memUsage (cache w2) in
          (* add image to cache if it fits in maxSize *)
          if int_add memSize (contentSize mu2) <=? maxSize mu2 then
            load_fetch L T reqKey w2
          else (Threw NotEnoughSpace, w2)
      end
  end.

(** [ImageCache::get<TPix>(filename, halfSampleLevel)]. *)
Definition get (L : Loader) (T : PixType) (path : string) (level : Z) (w : World)
  : Outcome * World :=
  let reqKey := reqKey_of T path level in
  (* find the requested image in the cached images *)
  match list_find (λ k, k = reqKey) (_keys (cache w)) with
  | Some (i, _) =>
      (* image becomes LRU *)
      fetch T reqKey (with_keys (delete i (_keys (cache w)) ++ [reqKey]) w)
  | None =>
      (* retrieve image size *)
      let w0 := log_io (EvReadImageSize path) w in
      match readImageSize L path with
      | None => (Threw LoaderError, w0)
      | Some (width, height) =>
          let memSize := required_memSize T width height level in
          let mu := _memUsage (cache w0) in
          (* add image to cache if it fits in capacity *)
          if int_add memSize (contentSize mu) <=? capacity mu then
            load_fetch L T reqKey w0
          else admit_evicting L T reqKey memSize w0
      end
  end.

(** ** Callers *)

(** A caller copies a handle it holds. *)
Definition copy_handle (p : ptr) (w : World) : World :=
  {| cache := cache w; heap := sp_copy p (heap w);
     handles := p :: handles w; ioLog := ioLog w |}.

(** Removal of the first occurrence of [p]. *)
Fixpoint remove_one (p : ptr) (l : list ptr) : list ptr :=
  match l with
  | [] => []
  | q :: l' => if decide (q = p) then l' else q :: remove_one p l'
  end.

(** A caller destroys a handle it holds. *)
Definition release_handle (p : ptr) (w : World) : World :=
  {| cache := cache w; heap := sp_drop p (heap w);
     handles := remove_one p (handles w); ioLog := ioLog w |}.

(** The states a program reaches from a new cache: calls of [get], with
    any pixel type, arguments and behaviour of the loader, interleaved with
    callers copying and destroying the handles they hold. *)
Inductive reachable (capacity_MB maxSize_MB : Z) : World → Prop :=
  | reach_new : reachable capacity_MB maxSize_MB (World_new capacity_MB maxSize_MB)
  | reach_get L T path level w :
      reachable capacity_MB maxSize_MB w →
      reachable capacity_MB maxSize_MB (get L T path level w).2
  | reach_copy p w :
      reachable capacity_MB maxSize_MB w → p ∈ handles w →
      reachable capacity_MB maxSize_MB (copy_handle p w)
  | reach_release p w :
      reachable capacity_MB maxSize_MB w → p ∈ handles w →
      reachable capacity_MB maxSize_MB (release_handle p w).

(** ** Quantities of the specification *)

(** The sum of [f] over a list. *)
Definition sum_over {A : Type} (f : A → Z) (l : list A) : Z :=
  foldr (λ x acc, f x + acc) 0 l.

(** The [memorySize()] of the value mapped to a key. *)
Definition entry_size (h : list Block) (m : gmap CacheKey CacheValue) (k : CacheKey) : Z :=
  match m !! k with Some v => memorySize h v | None => 0 end.

(** The sum of the byte sizes of the values mapped to the keys of a list. *)
Definition content_sum (h : list Block) (m : gmap CacheKey CacheValue)
    (ks : list CacheKey) : Z :=
  sum_over (entry_size h m) ks.

(** The sum of the byte sizes of all resident entry values. *)
Definition resident_bytes (h : list Block) (m : gmap CacheKey CacheValue) : Z :=
  map_fold (λ _ v acc, memorySize h v + acc) 0 m.

(** The key [k] is mapped to a value that wraps the image at [p]. *)
Definition holds (m : gmap CacheKey CacheValue) (p : ptr) (k : CacheKey) : Prop :=
  m !! k ≫= CacheValue_ptr = Some p.

#[global] Instance holds_dec m p k : Decision (holds m p k).
Proof. unfold holds. apply _. Defined.

(** The number of shared pointers to [p] that the cache owns. *)
Definition owners (m : gmap CacheKey CacheValue) (ks : list CacheKey) (p : ptr) : Z :=
  sum_over (λ k, if decide (holds m p k) then 1 else 0) ks.

(** The number of handles to [p] that callers hold. *)
Definition held (hs : list ptr) (p : ptr) : Z :=
  sum_over (λ q, if decide (q = p) then 1 else 0) hs.

(** The use count that [useCount()] reports for the entry of a key. *)
Definition entry_useCount (w : World) (k : CacheKey) : Z :=
  match _imagePtrs (cache w) !! k with
  | Some v => useCount (heap w) v
  | None => 0
  end.

(** The number of calls of [readImage] in a log. *)
Definition loads (io : list IOEvent) : Z :=
  sum_over (λ e, match e with EvReadImage _ => 1 | EvReadImageSize _ => 0 end) io.

(** The consistency of a state of the program: the recency list has no
    duplicate and lists the mapped keys; the counters of [_memUsage] are
    the number of entries and the sum of their sizes, as [int]s; every
    value is the wrapper of one image of the pixel type that its key
    names; every pointer is allocated; the use count of an image is the
    number of its owners, in the cache and among the callers; and no two
    entries share an image. *)
Record Inv (w : World) : Prop := mkInv {
  inv_nodup : NoDup (_keys (cache w));
  inv_dom : ∀ k, k ∈ _keys (cache w) ↔ is_Some (_imagePtrs (cache w) !! k);
  inv_count :
    nbImages (_memUsage (cache w)) = to_int (Z.of_nat (length (_keys (cache w))));
  inv_size :
    contentSize (_memUsage (cache w)) =
    to_int (content_sum (heap w) (_imagePtrs (cache w)) (_keys (cache w)));
  inv_typed : ∀ k v,
    _imagePtrs (cache w) !! k = Some v →
    ∃ T p, v = CacheValue_wrap T p ∧
           nbChannels k = ColorTypeInfo_size T ∧
           typeDesc k = ColorTypeInfo_typeDesc T ∧
           (p < length (heap w))%nat;
  inv_handles : ∀ p, p ∈ handles w → (p < length (heap w))%nat;
  inv_refs : ∀ p b,
    heap w !! p = Some b →
    use_count b = owners (_imagePtrs (cache w)) (_keys (cache w)) p + held (handles w) p;
  inv_distinct : ∀ k1 k2 p,
    holds (_imagePtrs (cache w)) p k1 → holds (_imagePtrs (cache w)) p k2 → k1 = k2
}.

(** The state that [load] and the return of the new image leave when the
    loader succeeds: one more entry at the most recently used end, owned by
    the cache and by the handle of the caller. *)
Definition admitted (T : PixType) (key : CacheKey) (bytes : Z) (w : World) : World :=
  let p := length (heap w) in
  let mu := _memUsage (cache w) in
  {| cache :=
       {| _memUsage :=
            {| capacity := capacity mu;
               maxSize := maxSize mu;
               nbImages := int_add (nbImages mu) 1;
               contentSize := int_add (contentSize mu) (to_int bytes) |};
          _imagePtrs := <[key := CacheValue_wrap T p]> (_imagePtrs (cache w));
          _keys := _keys (cache w) ++ [key] |};
     heap := heap w ++ [mkBlock bytes 2];
     handles := p :: handles w;
     ioLog := ioLog w ++ [EvReadImage (filename key)] |}.


(** ** Scenarios *)

(** The native dimensions of a file in a table of files. *)
Fixpoint file_dims (files : list (string * (Z * Z))) (path : string) : option (Z * Z) :=
  match files with
  | [] => None
  | (name, dims) :: files' =>
      if decide (name = path) then Some dims else file_dims files' path
  end.

(** A loader over a table of files with their native dimensions. The image
    that is read and downscaled has the probed dimensions divided by the
    factor, and its size is that of its pixels. A file that is not in the
    table cannot be read. *)
Definition table_loader (files : list (string * (Z * Z))) : Loader :=
  {| readImageSize := file_dims files;
     readImage := λ T path downscale,
       match file_dims files path with
       | Some (width, height) =>
           Some (Z.quot width downscale * Z.quot height downscale * sizeof T)
       | None => None
       end |}.

(** A caller that keeps the image it asked for. *)
Definition get_keep (L : Loader) (T : PixType) (path : string) (level : Z)
    (w : World) : World :=
  (get L T path level w).2.

(** A caller that destroys the handle as soon as [get] has returned. *)
Definition get_drop (L : Loader) (T : PixType) (path : string) (level : Z)
    (w : World) : World :=
  match get L T path level w with
  | (Returned (Some p), w') => release_handle p w'
  | (_, w') => w'
  end.

(** Scenario C: P is loaded and kept by its caller, Q is loaded and
    released, with a capacity of 10 MB and a maximal size of 15 MB. *)
Definition scenarioC_loader : Loader :=
  table_loader [("p.png"%string, (2000, 2000)); ("q.png"%string, (3000, 2000));
                ("r.png"%string, (3000, 2000))].

Definition scenarioC_state : World :=
  get_drop scenarioC_loader PixUChar "q.png" 0
    (get_keep scenarioC_loader PixUChar "p.png" 0 (World_new 10 15)).

(** P and Q are both loaded and kept by their callers: every entry of the
    cache is referenced. *)
Definition all_held_state : World :=
  get_keep scenarioC_loader PixUChar "q.png" 0
    (get_keep scenarioC_loader PixUChar "p.png" 0 (World_new 10 15)).

(** Two images of 1.5 GB each, requested from a cache of 2147 MB by callers
    that keep them. *)
Definition overflow_loader : Loader :=
  table_loader [("a.png"%string, (50000, 30000)); ("b.png"%string, (50000, 30000))].

Definition overflow_state : World :=
  get_keep overflow_loader PixUChar "b.png" 0
    (get_keep overflow_loader PixUChar "a.png" 0 (World_new 2147 2147)).

(** Three images of 4, 4 and 2 MB, loaded and released, fill a cache of
    10 MB; a fourth image of 5 MB is then requested. *)
Definition multi_victim_loader : Loader :=
  table_loader [("a.png"%string, (2000, 2000)); ("b.png"%string, (2000, 2000));
                ("c.png"%string, (2000, 1000)); ("d.png"%string, (2500, 2000))].

Definition multi_victim_state : World :=
  get_drop multi_victim_loader PixUChar "c.png" 0
    (get_drop multi_victim_loader PixUChar "b.png" 0
       (get_drop multi_victim_loader PixUChar "a.png" 0 (World_new 10 15))).

(** ** Equality and hash of keys *)

(** [CacheKey::operator==], as written: the conjunction of the four
    comparisons. *)
Definition CacheKey_eqb (k other : CacheKey) : bool :=
  String.eqb (filename k) (filename other) &&
  (nbChannels k =? nbChannels other) &&
  bool_decide (typeDesc k = typeDesc other) &&
  (halfSampleLevel k =? halfSampleLevel other).

(** [h << 1] on [std::size_t]. *)
Definition size_t_shl1 (h : Z) : Z := to_size_t (Z.shiftl h 1).

(** [CacheKeyHasher::operator()]. The hashes of the standard library and
    the integer value of the enumeration [BASETYPE] are taken as they come:
    [hash_string] is [std::hash<std::string>], [hash_int] is
    [std::hash<int>] and [BASETYPE_value] the conversion of the enumeration
    to [int]. *)
Definition CacheKeyHasher (hash_string : string → Z) (hash_int : Z → Z)
    (BASETYPE_value : BASETYPE → Z) (key : CacheKey) : Z :=
  let h1 := hash_string (filename key) in
  let h2 := hash_int (nbChannels key) in
  let h3 := hash_int (BASETYPE_value (typeDesc key)) in
  let h4 := hash_int (halfSampleLevel key) in
  Z.lxor (Z.lxor h1 (size_t_shl1 h2)) (Z.lxor h3 (size_t_shl1 h4)).

(** The key with its channel count and its level exchanged. *)
Definition swap_channels_level (k : CacheKey) : CacheKey :=
  mkCacheKey (filename k) (halfSampleLevel k) (typeDesc k) (nbChannels k).

(** A loader that gives the size of the files of scenario C and fails to
    read them. *)
Definition unreadable_loader : Loader :=
  {| readImageSize := readImageSize scenarioC_loader;
     readImage := λ _ _ _, None |}.

(** A request: the arguments of a call of [get], with the behaviour of the
    loader during the call. *)
Record Request : Type := mkRequest {
  req_loader : Loader;
  req_pix : PixType;
  req_path : string;
  req_level : Z
}.

(** A sequence of calls of [get], whatever their outcomes. *)
Fixpoint get_all (rs : list Request) (w : World) : World :=
  match rs with
  | [] => w
  | r :: rs' =>
      get_all rs' (get (req_loader r) (req_pix r) (req_path r) (req_level r) w).2
  end.

(** Scenario A: X, of 6,000,000 bytes, is loaded and released in a cache
    of 10 MB and at most 15 MB; Y, of 5,000,000 bytes, is requested next. *)
Definition scenarioA_loader : Loader :=
  table_loader [("x.png"%string, (3000, 2000)); ("y.png"%string, (2500, 2000))].

Definition scenarioA_state : World :=
  get_drop scenarioA_loader PixUChar "x.png" 0 (World_new 10 15).

(** P, of 4,000,000 bytes, is loaded in a cache of 10 MB and at most 15 MB
    and kept by its caller; an image of 8,000,000 bytes is requested
    next. *)
Definition over_capacity_loader : Loader :=
  table_loader [("p.png"%string, (2000, 2000)); ("big.png"%string, (4000, 2000))].

Definition over_capacity_state : World :=
  get_keep over_capacity_loader PixUChar "p.png" 0 (World_new 10 15).

(** P, of 6,000,000 bytes, is kept by its caller and Q, of 4,000,000
    bytes, is released, in a cache of 10 MB and at most 15 MB; an image of
    12,000,000 bytes is requested next. *)
Definition exhaustion_loader : Loader :=
  table_loader [("p.png"%string, (3000, 2000)); ("q.png"%string, (2000, 2000));
                ("huge.png"%string, (4000, 3000))].

Definition exhaustion_state : World :=
  get_drop exhaustion_loader PixUChar "q.png" 0
    (get_keep exhaustion_loader PixUChar "p.png" 0 (World_new 10 15)).
(** * Properties *)

(** ** Machine integers *)

Lemma to_int_range (z : Z) : in_int (to_int z).
Proof.
  unfold in_int, to_int, int_min, int_max.
  pose proof (Z.mod_pos_bound (z + 2 ^ 31) (2 ^ 32)). lia.
Qed.

Lemma to_int_id (z : Z) : in_int z → to_int z = z.
Proof.
  unfold in_int, to_int, int_min, int_max. intros Hz.
  rewrite Z.mod_small by lia. lia.
Qed.

Lemma to_int_idem (z : Z) : to_int (to_int z) = to_int z.
Proof. apply to_int_id, to_int_range. Qed.

Lemma to_int_eqm (a b : Z) : a mod 2 ^ 32 = b mod 2 ^ 32 → to_int a = to_int b.
Proof.
  intros H. unfold to_int. f_equal.
  rewrite <- (Zplus_mod_idemp_l a), <- (Zplus_mod_idemp_l b). by rewrite H.
Qed.

Lemma to_int_mod (z : Z) : to_int z mod 2 ^ 32 = z mod 2 ^ 32.
Proof.
  unfold to_int.
  rewrite <- Zminus_mod_idemp_l, Z.mod_mod by lia.
  rewrite Zminus_mod_idemp_l. f_equal. lia.
Qed.

Lemma to_int_add_l (a b : Z) : to_int (to_int a + b) = to_int (a + b).
Proof.
  apply to_int_eqm.
  rewrite <- Zplus_mod_idemp_l, to_int_mod, Zplus_mod_idemp_l. done.
Qed.

Lemma to_int_add_r (a b : Z) : to_int (a + to_int b) = to_int (a + b).
Proof. rewrite (Z.add_comm a), to_int_add_l. f_equal. lia. Qed.

Lemma to_int_sub_l (a b : Z) : to_int (to_int a - b) = to_int (a - b).
Proof. apply (to_int_add_l a (- b)). Qed.

Lemma to_int_sub_r (a b : Z) : to_int (a - to_int b) = to_int (a - b).
Proof.
  apply to_int_eqm.
  rewrite <- Zminus_mod_idemp_r, to_int_mod, Zminus_mod_idemp_r. done.
Qed.

Lemma to_int_mul_l (a b : Z) : to_int (to_int a * b) = to_int (a * b).
Proof.
  apply to_int_eqm.
  rewrite <- Zmult_mod_idemp_l, to_int_mod, Zmult_mod_idemp_l. done.
Qed.

Lemma size_t_mod (z : Z) : to_size_t z mod 2 ^ 32 = z mod 2 ^ 32.
Proof.
  unfold to_size_t. apply Z.mod_mod_divide.
  exists (2 ^ 32). reflexivity.
Qed.

Lemma to_int_size_t (z : Z) : to_int (to_size_t z) = to_int z.
Proof. apply to_int_eqm, size_t_mod. Qed.

Lemma to_int_size_t_mul (z s : Z) : to_int (to_size_t z * s) = to_int (z * s).
Proof.
  apply to_int_eqm.
  rewrite <- Zmult_mod_idemp_l, size_t_mod, Zmult_mod_idemp_l. done.
Qed.

(** The three conversions in the computation of [memSize] amount to one
    reduction of the exact product modulo 2^32. *)
Lemma required_memSize_wrap (T : PixType) (width height level : Z) :
  required_memSize T width height level =
  to_int (Z.quot width (int_shl 1 level) * Z.quot height (int_shl 1 level) * sizeof T).
Proof.
  unfold required_memSize, int_mul, int_div.
  set (a := Z.quot width _). set (b := Z.quot height _). set (s := sizeof T).
  rewrite to_int_size_t, to_int_size_t_mul, to_int_mul_l.
  replace (to_int a * to_int b * s) with (to_int a * (to_int b * s)) by lia.
  rewrite to_int_mul_l.
  replace (a * (to_int b * s)) with (to_int b * (a * s)) by lia.
  rewrite to_int_mul_l. f_equal. lia.
Qed.

Lemma int_shl_1 (level : Z) : 0 <= level < 31 → int_shl 1 level = 2 ^ level.
Proof.
  intros Hl. unfold int_shl. rewrite Z.shiftl_1_l.
  apply to_int_id. unfold in_int, int_min, int_max.
  assert (0 < 2 ^ level) by lia.
  assert (2 ^ level <= 2 ^ 30) by (apply Z.pow_le_mono_r; lia).
  lia.
Qed.

(** For a dimension that is not negative and a level the shift is defined
    for, the quotient by [1 << level] is the right shift by [level]. *)
Lemma quot_downscale (x level : Z) :
  0 <= x → 0 <= level < 31 → Z.quot x (int_shl 1 level) = Z.shiftr x level.
Proof.
  intros Hx Hl. rewrite int_shl_1 by done.
  rewrite Z.shiftr_div_pow2 by lia.
  apply Z.quot_div_nonneg; lia.
Qed.

(** ** Cache values *)

Lemma CacheValue_ptr_wrap (T : PixType) (p : ptr) :
  CacheValue_ptr (CacheValue_wrap T p) = Some p.
Proof. by destruct T. Qed.

Lemma CacheValue_get_wrap (T : PixType) (p : ptr) :
  CacheValue_get T (CacheValue_wrap T p) = Some p.
Proof. by destruct T. Qed.

Lemma CacheValue_get_wrap_ne (T T' : PixType) (p : ptr) :
  T ≠ T' → CacheValue_get T' (CacheValue_wrap T p) = None.
Proof. by destruct T, T'. Qed.

Lemma CacheValue_destroy_wrap (T : PixType) (p : ptr) (h : list Block) :
  CacheValue_destroy (CacheValue_wrap T p) h = sp_drop p h.
Proof. by destruct T. Qed.

(** The pixel types are told apart by the channel count and the sample
    type that the key records. *)
Lemma ColorTypeInfo_inj (T T' : PixType) :
  ColorTypeInfo_size T = ColorTypeInfo_size T' →
  ColorTypeInfo_typeDesc T = ColorTypeInfo_typeDesc T' →
  T = T'.
Proof. by destruct T, T'. Qed.

Lemma reqKey_of_inj (T T' : PixType) (f f' : string) (l l' : Z) :
  reqKey_of T f l = reqKey_of T' f' l' → T = T' ∧ f = f' ∧ l = l'.
Proof.
  unfold reqKey_of. intros H. injection H as Hf Hs Ht Hl.
  split; [by apply ColorTypeInfo_inj | done].
Qed.

(** ** The store of control blocks *)

Lemma lookup_add_use (d : Z) (p q : ptr) (h : list Block) :
  alter (add_use d) p h !! q =
  (λ b, if decide (p = q) then add_use d b else b) <$> h !! q.
Proof.
  rewrite list_lookup_alter.
  case_decide; subst; by destruct (h !! q).
Qed.

Lemma memorySize_add_use (d : Z) (p : ptr) (h : list Block) (v : CacheValue) :
  memorySize (alter (add_use d) p h) v = memorySize h v.
Proof.
  unfold memorySize. destruct (CacheValue_ptr v) as [q|]; [|done].
  rewrite lookup_add_use. destruct (h !! q) as [b|]; [|done].
  simpl. by case_decide.
Qed.

Lemma memorySize_app (h : list Block) (b : Block) (v : CacheValue) (q : ptr) :
  CacheValue_ptr v = Some q → (q < length h)%nat →
  memorySize (h ++ [b]) v = memorySize h v.
Proof.
  intros Hv Hq. unfold memorySize. rewrite Hv.
  by rewrite lookup_app_l.
Qed.

Lemma useCount_wrap (h : list Block) (T : PixType) (p : ptr) (b : Block) :
  h !! p = Some b → useCount h (CacheValue_wrap T p) = use_count b.
Proof. intros H. unfold useCount. by rewrite CacheValue_ptr_wrap, H. Qed.

(** ** Sums over lists *)

Lemma sum_over_app {A} (f : A → Z) (l1 l2 : list A) :
  sum_over f (l1 ++ l2) = sum_over f l1 + sum_over f l2.
Proof. induction l1 as [|x l1 IH]; simpl; [done | rewrite IH; lia]. Qed.

Lemma sum_over_ext {A} (f g : A → Z) (l : list A) :
  (∀ x, x ∈ l → f x = g x) → sum_over f l = sum_over g l.
Proof.
  induction l as [|x l IH]; intros H; simpl; [done|].
  rewrite (H x), IH; [done | | left].
  intros y Hy. apply H. by right.
Qed.

Lemma sum_over_perm {A} (f : A → Z) (l1 l2 : list A) :
  l1 ≡ₚ l2 → sum_over f l1 = sum_over f l2.
Proof. induction 1; simpl; lia. Qed.

Lemma sum_over_delete {A} (f : A → Z) (l : list A) (i : nat) (x : A) :
  l !! i = Some x → sum_over f (delete i l) = sum_over f l - f x.
Proof.
  revert i. induction l as [|y l IH]; intros [|i] H; simplify_eq/=; [lia|].
  rewrite (IH i H). lia.
Qed.

Lemma sum_over_zero {A} (f : A → Z) (l : list A) :
  (∀ x, x ∈ l → f x = 0) → sum_over f l = 0.
Proof.
  induction l as [|x l IH]; intros H; simpl; [done|].
  rewrite (H x), IH; [done | | left].
  intros y Hy. apply H. by right.
Qed.

Lemma sum_over_nonneg {A} (f : A → Z) (l : list A) :
  (∀ x, 0 <= f x) → 0 <= sum_over f l.
Proof. intros H. induction l as [|x l IH]; simpl; [done|]. specialize (H x). lia. Qed.

Lemma held_nonneg (hs : list ptr) (p : ptr) : 0 <= held hs p.
Proof. apply sum_over_nonneg. intros q. case_decide; lia. Qed.

Lemma owners_nonneg m ks p : 0 <= owners m ks p.
Proof. apply sum_over_nonneg. intros q. case_decide; lia. Qed.

Lemma held_elem (hs : list ptr) (p : ptr) : p ∈ hs → 1 <= held hs p.
Proof.
  induction hs as [|q hs IH]; intros H; [by apply elem_of_nil in H|].
  unfold held. simpl. fold (held hs p).
  pose proof (held_nonneg hs p).
  apply elem_of_cons in H as [->|H].
  - rewrite decide_True by done. lia.
  - specialize (IH H). case_decide; lia.
Qed.

Lemma held_remove_one (hs : list ptr) (p q : ptr) :
  p ∈ hs →
  held (remove_one p hs) q = held hs q - (if decide (p = q) then 1 else 0).
Proof.
  induction hs as [|r hs IH]; intros H; [by apply elem_of_nil in H|].
  simpl. destruct (decide (r = p)) as [->|Hne].
  - unfold held. simpl. lia.
  - apply elem_of_cons in H as [->|H]; [done|].
    unfold held in *. simpl. rewrite (IH H). lia.
Qed.

Lemma remove_one_elem (hs : list ptr) (p q : ptr) :
  q ∈ remove_one p hs → q ∈ hs.
Proof.
  induction hs as [|r hs IH]; simpl; [done|].
  case_decide; intros Hq; [by right|].
  apply elem_of_cons in Hq as [->|Hq]; [left | right; auto].
Qed.

Lemma owners_holder m ks p k :
  k ∈ ks → holds m p k → 1 <= owners m ks p.
Proof.
  intros Hk Hh. induction ks as [|k' ks IH]; [by apply elem_of_nil in Hk|].
  unfold owners. simpl. fold (owners m ks p).
  pose proof (owners_nonneg m ks p).
  apply elem_of_cons in Hk as [->|Hk].
  - rewrite decide_True by done. lia.
  - specialize (IH Hk). case_decide; lia.
Qed.

(** ** Preservation of the consistency of the state *)

Lemma delete_split {A} (l : list A) (i : nat) (x : A) :
  l !! i = Some x →
  ∃ l1 l2, l = l1 ++ x :: l2 ∧ delete i l = l1 ++ l2 ∧ length l1 = i.
Proof.
  intros H. exists (take i l), (drop (S i) l).
  split; [by rewrite take_drop_middle|].
  split; [apply delete_take_drop|].
  apply length_take_le. apply lookup_lt_Some in H. lia.
Qed.

Lemma content_sum_add_use d p h m ks :
  content_sum (alter (add_use d) p h) m ks = content_sum h m ks.
Proof.
  apply sum_over_ext. intros k _. unfold entry_size.
  destruct (m !! k); [apply memorySize_add_use | done].
Qed.

Lemma Inv_new (capacity_MB maxSize_MB : Z) : Inv (World_new capacity_MB maxSize_MB).
Proof.
  split; simpl.
  - constructor.
  - intros k. rewrite lookup_empty. split; [by intros ?%elem_of_nil | by intros [? ?]].
  - reflexivity.
  - reflexivity.
  - intros k v. by rewrite lookup_empty.
  - by intros p ?%elem_of_nil.
  - intros p b. by rewrite lookup_nil.
  - intros k1 k2 p. unfold holds. by rewrite lookup_empty.
Qed.

Lemma Inv_log_io (e : IOEvent) (w : World) : Inv w → Inv (log_io e w).
Proof. intros [H1 H2 H3 H4 H5 H6 H7 H8]. by split. Qed.

Lemma Inv_with_keys (ks : list CacheKey) (w : World) :
  ks ≡ₚ _keys (cache w) → Inv w → Inv (with_keys ks w).
Proof.
  intros Hp [H1 H2 H3 H4 H5 H6 H7 H8]. split; simpl.
  - by rewrite Hp.
  - intros k. by rewrite Hp.
  - by rewrite Hp.
  - rewrite H4. f_equal. symmetry. by apply sum_over_perm.
  - done.
  - done.
  - intros p b Hb. rewrite (H7 p b Hb). f_equal. symmetry. by apply sum_over_perm.
  - done.
Qed.

Lemma Inv_copy_handle (p : ptr) (w : World) :
  (p < length (heap w))%nat → Inv w → Inv (copy_handle p w).
Proof.
  intros Hp [H1 H2 H3 H4 H5 H6 H7 H8]. split; simpl; try done.
  - unfold sp_copy. by rewrite content_sum_add_use.
  - intros k v Hk. destruct (H5 k v Hk) as (T & q & ? & ? & ? & ?).
    exists T, q. unfold sp_copy. by rewrite length_alter.
  - intros q Hq. unfold sp_copy. rewrite length_alter.
    apply elem_of_cons in Hq as [->|Hq]; auto.
  - intros q b. unfold sp_copy. rewrite lookup_add_use.
    destruct (heap w !! q) as [b0|] eqn:Hq; [|done].
    intros [= <-]. specialize (H7 q b0 Hq).
    unfold held. simpl. fold (held (handles w) q).
    case_decide; simpl; lia.
Qed.

Lemma Inv_release_handle (p : ptr) (w : World) :
  p ∈ handles w → Inv w → Inv (release_handle p w).
Proof.
  intros Hp [H1 H2 H3 H4 H5 H6 H7 H8]. split; simpl; try done.
  - unfold sp_drop. by rewrite content_sum_add_use.
  - intros k v Hk. destruct (H5 k v Hk) as (T & q & ? & ? & ? & ?).
    exists T, q. unfold sp_drop. by rewrite length_alter.
  - intros q Hq. unfold sp_drop. rewrite length_alter.
    apply H6. by eapply remove_one_elem.
  - intros q b. unfold sp_drop. rewrite lookup_add_use.
    destruct (heap w !! q) as [b0|] eqn:Hq; [|done].
    intros [= <-]. specialize (H7 q b0 Hq).
    rewrite held_remove_one by done.
    case_decide; simpl; lia.
Qed.

Lemma Inv_erase_entry (i : nat) (key : CacheKey) (value : CacheValue) (w : World) :
  _keys (cache w) !! i = Some key →
  _imagePtrs (cache w) !! key = Some value →
  Inv w → Inv (erase_entry i key value w).
Proof.
  intros Hi Hkey [H1 H2 H3 H4 H5 H6 H7 H8].
  destruct (delete_split _ _ _ Hi) as (l1 & l2 & Hks & Hdel & Hlen).
  destruct (H5 key value Hkey) as (T & p & -> & HT1 & HT2 & Hp).
  assert (Hnot : key ∉ l1 ++ l2).
  { rewrite Hks in H1. apply NoDup_app in H1 as (_ & Ha & Hb).
    apply NoDup_cons in Hb as [Hb _].
    intros [Hin|Hin]%elem_of_app; [|done].
    apply (Ha key Hin). left. }
  assert (Hlook : ∀ k, k ∈ l1 ++ l2 →
            delete key (_imagePtrs (cache w)) !! k = _imagePtrs (cache w) !! k).
  { intros k Hk. apply lookup_delete_ne. by intros ->. }
  unfold erase_entry. rewrite Hkey, CacheValue_destroy_wrap.
  split; simpl; rewrite ?Hdel.
  - rewrite Hks in H1. apply NoDup_app in H1 as (Ha & Hb & Hc).
    apply NoDup_cons in Hc as [Hc Hd]. apply NoDup_app.
    split; [done|]. split; [|done].
    intros x Hx Hx'. apply (Hb x Hx). by right.
  - intros k. split.
    + intros Hk. rewrite Hlook by done. apply H2. rewrite Hks.
      apply elem_of_app in Hk as [Hk|Hk]; apply elem_of_app; [by left|].
      right. by right.
    + intros Hk. rewrite lookup_delete in Hk. case_decide; [by destruct Hk|].
      apply H2 in Hk. rewrite Hks in Hk.
      apply elem_of_app in Hk as [Hk|Hk]; apply elem_of_app; [by left|].
      apply elem_of_cons in Hk as [->|Hk]; [done | by right].
  - rewrite H3, Hks. unfold int_sub. rewrite to_int_sub_l. f_equal.
    rewrite !length_app. simpl. lia.
  - rewrite H4. unfold int_sub. rewrite to_int_sub_l. f_equal.
    unfold sp_drop. rewrite content_sum_add_use.
    unfold content_sum.
    rewrite (sum_over_ext (entry_size (heap w) (delete key _)) (entry_size (heap w) (_imagePtrs (cache w))) (l1 ++ l2)).
    2:{ intros k Hk. unfold entry_size. by rewrite Hlook. }
    assert (He : entry_size (heap w) (_imagePtrs (cache w)) key =
                 memorySize (heap w) (CacheValue_wrap T p))
      by (unfold entry_size; by rewrite Hkey).
    rewrite Hks, !sum_over_app. simpl. rewrite He. lia.
  - intros k v Hk. rewrite lookup_delete in Hk. case_decide; [done|].
    destruct (H5 k v Hk) as (T' & q & ? & ? & ? & ?).
    exists T', q. unfold sp_drop. by rewrite length_alter.
  - intros q Hq. unfold sp_drop. rewrite length_alter. auto.
  - intros q b. unfold sp_drop. rewrite lookup_add_use.
    destruct (heap w !! q) as [b0|] eqn:Hq; [|done].
    intros [= <-]. specialize (H7 q b0 Hq).
    unfold owners in *.
    rewrite (sum_over_ext _ (λ k, if decide (holds (_imagePtrs (cache w)) q k) then 1 else 0) (l1 ++ l2)).
    2:{ intros k Hk.
        assert (Hiff : holds (delete key (_imagePtrs (cache w))) q k ↔
                       holds (_imagePtrs (cache w)) q k)
          by (unfold holds; by rewrite (Hlook k Hk)).
        repeat case_decide; tauto. }
    assert (Hh : holds (_imagePtrs (cache w)) q key ↔ p = q).
    { unfold holds. rewrite Hkey. simpl. rewrite CacheValue_ptr_wrap.
      split; congruence. }
    rewrite Hks in H7. rewrite !sum_over_app in *. simpl in H7.
    destruct (decide (p = q)) as [Heq|Hne]; simpl.
    + rewrite decide_True in H7 by by apply Hh. lia.
    + rewrite decide_False in H7 by by rewrite Hh. lia.
  - intros k1 k2 q. unfold holds. rewrite !lookup_delete.
    repeat case_decide; try done. apply H8.
Qed.

Lemma CacheValue_get_wrap_cases (T T' : PixType) (p : ptr) :
  CacheValue_get T (CacheValue_wrap T' p) = if decide (T' = T) then Some p else None.
Proof. by destruct T, T'. Qed.

Lemma Inv_hand_out (img : option ptr) (w : World) :
  (∀ p, img = Some p → (p < length (heap w))%nat) → Inv w → Inv (hand_out img w).
Proof.
  intros Hp HI. destruct img as [p|]; [|done].
  apply (Inv_copy_handle p w); auto.
Qed.

Lemma Inv_fetch (T : PixType) (k : CacheKey) (w : World) :
  Inv w → Inv (fetch T k w).2.
Proof.
  intros HI. unfold fetch.
  destruct (_imagePtrs (cache w) !! k) as [v|] eqn:Hk; [|done].
  simpl. apply Inv_hand_out; [|done].
  intros p Hp. destruct (inv_typed w HI k v Hk) as (T' & q & -> & _ & _ & Hq).
  rewrite CacheValue_get_wrap_cases in Hp. case_decide; congruence.
Qed.

Lemma not_holds_fresh (w : World) (k : CacheKey) :
  Inv w → ¬ holds (_imagePtrs (cache w)) (length (heap w)) k.
Proof.
  intros HI. unfold holds.
  destruct (_imagePtrs (cache w) !! k) as [v|] eqn:Hk; [|done].
  destruct (inv_typed w HI k v Hk) as (T' & q & -> & _ & _ & Hq).
  simpl. rewrite CacheValue_ptr_wrap. intros [= ->]. lia.
Qed.

Lemma Inv_load (L : Loader) (T : PixType) (key : CacheKey) (w : World) :
  key ∉ _keys (cache w) →
  nbChannels key = ColorTypeInfo_size T →
  typeDesc key = ColorTypeInfo_typeDesc T →
  Inv w → Inv (load L T key w).2.
Proof.
  intros Hnew HT1 HT2 HI. unfold load.
  destruct (readImage L T (filename key) _) as [bytes|]; [|by apply Inv_log_io].
  assert (Hfresh : ∀ k, ¬ holds (_imagePtrs (cache w)) (length (heap w)) k)
    by (intros k; by apply not_holds_fresh).
  destruct HI as [H1 H2 H3 H4 H5 H6 H7 H8].
  assert (Hnone : _imagePtrs (cache w) !! key = None).
  { destruct (_imagePtrs (cache w) !! key) eqn:E; [|done].
    exfalso. apply Hnew, H2. by rewrite E. }
  simpl. rewrite bool_decide_eq_true_2 by done.
  set (h' := heap w ++ [mkBlock bytes 1]).
  set (value := CacheValue_wrap T (length (heap w))).
  set (m := _imagePtrs (cache w)) in *.
  assert (Hlook : ∀ k, k ∈ _keys (cache w) → <[key:=value]> m !! k = m !! k).
  { intros k Hk. apply lookup_insert_ne. by intros ->. }
  assert (Hsize : ∀ k, k ∈ _keys (cache w) →
            entry_size h' (<[key:=value]> m) k = entry_size (heap w) m k).
  { intros k Hk. unfold entry_size. rewrite Hlook by done.
    destruct (m !! k) as [v|] eqn:Ev; [|done].
    destruct (H5 k v Ev) as (T' & q & -> & _ & _ & Hq).
    apply (memorySize_app _ _ _ q); [apply CacheValue_ptr_wrap | done]. }
  split; simpl.
  - apply NoDup_app. split; [done|]. split; [|apply NoDup_singleton].
    intros x Hx ->%list_elem_of_singleton. done.
  - intros k. rewrite elem_of_app, list_elem_of_singleton, lookup_insert.
    case_decide; subst.
    + split; [by eexists | by right].
    + rewrite H2. split; [by intros [?|?] | by left].
  - rewrite H3. unfold int_add. rewrite to_int_add_l, length_app. simpl.
    f_equal. lia.
  - rewrite H4. unfold int_add. rewrite to_int_add_l. f_equal.
    unfold content_sum. rewrite sum_over_app. simpl.
    rewrite (sum_over_ext _ _ _ Hsize).
    assert (He : entry_size h' (<[key:=value]> m) key = memorySize h' value)
      by (unfold entry_size; by rewrite lookup_insert_eq).
    rewrite He. lia.
  - intros k v. rewrite lookup_insert. unfold h'. rewrite length_app. simpl.
    case_decide.
    + intros [= <-]. subst k. exists T, (length (heap w)).
      repeat split; [done | done | lia].
    + intros Hk. destruct (H5 k v Hk) as (T' & q & ? & ? & ? & ?).
      exists T', q. repeat split; [done | done | done | lia].
  - intros p Hp. unfold h'. rewrite length_app. specialize (H6 p Hp). lia.
  - intros q b Hq. unfold owners. rewrite sum_over_app. simpl.
    rewrite (sum_over_ext _ (λ k, if decide (holds m q k) then 1 else 0) (_keys (cache w))).
    2:{ intros k Hk.
        assert (Hiff : holds (<[key:=value]> m) q k ↔ holds m q k)
          by (unfold holds; by rewrite (Hlook k Hk)).
        repeat case_decide; tauto. }
    assert (Hh : holds (<[key:=value]> m) q key ↔ length (heap w) = q).
    { unfold holds. rewrite lookup_insert_eq. simpl. unfold value.
      rewrite CacheValue_ptr_wrap. split; congruence. }
    fold (owners m (_keys (cache w)) q).
    destruct (decide (q = length (heap w))) as [->|Hne].
    + unfold h' in Hq. rewrite lookup_app_r, Nat.sub_diag in Hq by lia.
      injection Hq as <-. simpl.
      rewrite decide_True by by apply Hh.
      unfold owners. rewrite sum_over_zero.
      2:{ intros k _. rewrite decide_False; [done | apply Hfresh]. }
      unfold held. rewrite sum_over_zero; [done|].
      intros p Hp. specialize (H6 p Hp). rewrite decide_False; [done | lia].
    + rewrite decide_False by (rewrite Hh; congruence).
      unfold h' in Hq.
      assert (q < length (heap w))%nat.
      { apply lookup_lt_Some in Hq. rewrite length_app in Hq. simpl in Hq. lia. }
      rewrite lookup_app_l in Hq by done.
      rewrite (H7 q b Hq). lia.
  - intros k1 k2 q. unfold holds. rewrite !lookup_insert.
    repeat case_decide; subst; try done; simpl; unfold value;
      rewrite ?CacheValue_ptr_wrap.
    + intros [= <-] Hk2. by apply Hfresh in Hk2.
    + intros Hk1 [= <-]. by apply Hfresh in Hk1.
    + apply H8.
Qed.

Lemma Inv_load_fetch (L : Loader) (T : PixType) (key : CacheKey) (w : World) :
  key ∉ _keys (cache w) →
  nbChannels key = ColorTypeInfo_size T →
  typeDesc key = ColorTypeInfo_typeDesc T →
  Inv w → Inv (load_fetch L T key w).2.
Proof.
  intros Hnew HT1 HT2 HI. unfold load_fetch.
  pose proof (Inv_load L T key w Hnew HT1 HT2 HI) as HL.
  destruct (load L T key w) as [[e|] w']; [done|].
  by apply Inv_fetch.
Qed.

(** ** The scans of the recency list *)

Lemma scan_from_found P m i ks j key value :
  scan_from P m i ks = ScanFound j key value →
  ∃ n, j = (i + n)%nat ∧ ks !! n = Some key ∧ m !! key = Some value ∧
       P value = true ∧
       ∀ n' k', (n' < n)%nat → ks !! n' = Some k' →
                ∃ v', m !! k' = Some v' ∧ P v' = false.
Proof.
  revert i. induction ks as [|k ks IH]; intros i H; simpl in H; [done|].
  destruct (m !! k) as [v|] eqn:Hk; [|done].
  destruct (P v) eqn:HP.
  - injection H as <- <- <-. exists 0%nat.
    repeat split; try done; try lia; intros; lia.
  - destruct (IH _ H) as (n & -> & Hn & Hm & HPv & Hbefore).
    exists (S n). split; [lia|]. do 3 (split; [done|]).
    intros [|n'] k' Hlt Hk'; simpl in Hk'.
    + injection Hk' as <-. by exists v.
    + apply (Hbefore n'); [lia | done].
Qed.

Lemma scan_from_end P m i ks :
  scan_from P m i ks = ScanEnd →
  ∀ k, k ∈ ks → ∃ v, m !! k = Some v ∧ P v = false.
Proof.
  revert i. induction ks as [|k ks IH]; intros i H k' Hk'; simpl in H.
  - by apply elem_of_nil in Hk'.
  - destruct (m !! k) as [v|] eqn:Hk; [|done].
    destruct (P v) eqn:HP; [done|].
    apply elem_of_cons in Hk' as [->|Hk']; [by exists v | by eapply IH].
Qed.

Lemma scan_from_threw P m i ks :
  scan_from P m i ks = ScanThrew → ∃ k, k ∈ ks ∧ m !! k = None.
Proof.
  revert i. induction ks as [|k ks IH]; intros i H; simpl in H; [done|].
  destruct (m !! k) as [v|] eqn:Hk.
  - destruct (P v); [done|].
    destruct (IH _ H) as (k' & ? & ?). exists k'. split; [by right | done].
  - exists k. split; [left | done].
Qed.

(** The scan finds the first key of the list whose value satisfies the
    condition. *)
Lemma scan_from_first P m i pre key post value :
  (∀ k, k ∈ pre → ∃ v, m !! k = Some v ∧ P v = false) →
  m !! key = Some value → P value = true →
  scan_from P m i (pre ++ key :: post) = ScanFound (i + length pre) key value.
Proof.
  revert i. induction pre as [|k pre IH]; intros i Hpre Hkey HP; simpl.
  - rewrite Hkey, HP. f_equal. lia.
  - destruct (Hpre k) as (v & -> & ->); [left|].
    rewrite IH; [f_equal; lia | | done | done].
    intros k' Hk'. apply Hpre. by right.
Qed.

Lemma scan_from_none P m i ks :
  (∀ k, k ∈ ks → ∃ v, m !! k = Some v ∧ P v = false) →
  scan_from P m i ks = ScanEnd.
Proof.
  revert i. induction ks as [|k ks IH]; intros i H; simpl; [done|].
  destruct (H k) as (v & -> & ->); [left|].
  apply IH. intros k' Hk'. apply H. by right.
Qed.

(** On a consistent state a scan does not throw. *)
Lemma scan_from_Inv P (w : World) i :
  Inv w → scan_from P (_imagePtrs (cache w)) i (_keys (cache w)) ≠ ScanThrew.
Proof.
  intros HI H. apply scan_from_threw in H as (k & Hk & Hnone).
  apply (inv_dom w HI) in Hk. rewrite Hnone in Hk. by destruct Hk.
Qed.

(** ** The loop of the second eviction pass *)

Lemma erase_entry_keys i key value w :
  _keys (cache (erase_entry i key value w)) = delete i (_keys (cache w)).
Proof. done. Qed.

Lemma elem_of_delete {A} (l : list A) (i : nat) (x : A) :
  x ∈ delete i l → x ∈ l.
Proof.
  intros H. eapply elem_of_sublist; [done | apply sublist_delete].
Qed.

(** The bound on the iterations is never reached: every iteration that
    does not leave the loop removes a key from the recency list. *)
Lemma evict_loop_fuel (fuel : nat) (missingCapacity : Z) (w : World) :
  (length (_keys (cache w)) < fuel)%nat →
  is_Some (evict_loop fuel missingCapacity w).
Proof.
  revert w. induction fuel as [|fuel IH]; intros w Hlen; [lia|].
  simpl. destruct (0 <? missingCapacity); [|by eexists].
  destruct (scan_from _ _ _ _) as [i key value| |] eqn:Hscan; [|by eexists..].
  apply IH. rewrite erase_entry_keys.
  apply scan_from_found in Hscan as (n & -> & Hn & _).
  rewrite length_delete by by eexists.
  apply lookup_lt_Some in Hn. lia.
Qed.

Lemma evict_loop_Inv (fuel : nat) (missingCapacity : Z) (w : World) r w' :
  Inv w → evict_loop fuel missingCapacity w = Some (r, w') →
  Inv w' ∧ r = None ∧ ∀ k, k ∈ _keys (cache w') → k ∈ _keys (cache w).
Proof.
  revert w. induction fuel as [|fuel IH]; intros w HI H; [done|].
  simpl in H. destruct (0 <? missingCapacity); [|by simplify_eq].
  destruct (scan_from _ _ _ _) as [i key value| |] eqn:Hscan.
  - apply scan_from_found in Hscan as (n & -> & Hn & Hm & _).
    apply IH in H as (? & ? & Hsub).
    + do 2 (split; [done|]). intros k Hk. apply Hsub in Hk.
      rewrite erase_entry_keys in Hk. by eapply elem_of_delete.
    + by apply Inv_erase_entry.
  - by simplify_eq.
  - by apply scan_from_Inv in Hscan.
Qed.

(** ** The consistency of the reachable states *)

Lemma list_find_key_None (reqKey : CacheKey) (ks : list CacheKey) :
  list_find (λ k, k = reqKey) ks = None → reqKey ∉ ks.
Proof.
  intros H Hin. apply list_find_None in H.
  rewrite Forall_forall in H. by apply (H reqKey).
Qed.

Lemma list_find_key_Some (reqKey : CacheKey) (ks : list CacheKey) i k :
  list_find (λ k, k = reqKey) ks = Some (i, k) → ks !! i = Some reqKey ∧ k = reqKey.
Proof. intros (H1 & -> & _)%list_find_Some. done. Qed.

Lemma list_find_key_elem (reqKey : CacheKey) (ks : list CacheKey) :
  reqKey ∈ ks → ∃ i, list_find (λ k, k = reqKey) ks = Some (i, reqKey).
Proof.
  intros Hin.
  destruct (list_find (λ k, k = reqKey) ks) as [[i k]|] eqn:H.
  - apply list_find_key_Some in H as H'. destruct H' as [_ ->]. by exists i.
  - by apply list_find_key_None in H.
Qed.

Lemma promote_perm (ks : list CacheKey) (i : nat) (k : CacheKey) :
  ks !! i = Some k → delete i ks ++ [k] ≡ₚ ks.
Proof.
  intros H. destruct (delete_split _ _ _ H) as (l1 & l2 & -> & -> & _).
  rewrite <- app_assoc. apply Permutation_app_head.
  symmetry. apply Permutation_cons_append.
Qed.

Lemma Inv_get (L : Loader) (T : PixType) (path : string) (level : Z) (w : World) :
  Inv w → Inv (get L T path level w).2.
Proof.
  intros HI. unfold get.
  destruct (list_find _ _) as [[i k]|] eqn:Hfind.
  { apply list_find_key_Some in Hfind as [Hi ->].
    apply Inv_fetch, Inv_with_keys; [by apply promote_perm | done]. }
  apply list_find_key_None in Hfind.
  pose proof (Inv_log_io (EvReadImageSize path) w HI) as HI0.
  set (w0 := log_io (EvReadImageSize path) w) in *.
  destruct (readImageSize L path) as [[width height]|]; [|done].
  case_match; [by apply Inv_load_fetch|].
  unfold admit_evicting.
  destruct (scan_from (fits_unused _ _) _ _ _) as [i key value| |] eqn:Hscan.
  - apply scan_from_found in Hscan as (n & -> & Hn & Hm & _).
    apply Inv_load_fetch; [|done|done|by apply Inv_erase_entry].
    rewrite erase_entry_keys. intros Hin. by apply elem_of_delete in Hin.
  - destruct (evict_loop _ _ _) as [[r w2]|] eqn:Hloop; [|done].
    apply evict_loop_Inv in Hloop as (HI2 & -> & Hsub); [|done].
    case_match; [|done].
    apply Inv_load_fetch; [|done..]. intros Hin. by apply Hsub in Hin.
  - done.
Qed.

Lemma reachable_Inv (capacity_MB maxSize_MB : Z) (w : World) :
  reachable capacity_MB maxSize_MB w → Inv w.
Proof.
  induction 1 as [|L T path level w _ IH|p w _ IH Hp|p w _ IH Hp].
  - apply Inv_new.
  - by apply Inv_get.
  - apply Inv_copy_handle; [by apply (inv_handles w IH) | done].
  - by apply Inv_release_handle.
Qed.

Lemma fetch_not_OutOfFuel (T : PixType) (key : CacheKey) (w : World) :
  (fetch T key w).1 ≠ OutOfFuel.
Proof. unfold fetch. by destruct (_imagePtrs (cache w) !! key). Qed.

Lemma load_fetch_not_OutOfFuel (L : Loader) (T : PixType) (key : CacheKey) (w : World) :
  (load_fetch L T key w).1 ≠ OutOfFuel.
Proof.
  unfold load_fetch. destruct (load L T key w) as [[e|] w']; [done|].
  apply fetch_not_OutOfFuel.
Qed.

Lemma admit_evicting_not_OutOfFuel (L : Loader) (T : PixType) (key : CacheKey)
    (memSize : Z) (w : World) :
  (admit_evicting L T key memSize w).1 ≠ OutOfFuel.
Proof.
  unfold admit_evicting.
  destruct (scan_from (fits_unused _ _) _ _ _);
    [apply load_fetch_not_OutOfFuel | | done].
  match goal with
  | |- context [evict_loop ?f ?m ?w0] =>
      destruct (evict_loop_fuel f m w0) as [[r w2] Hloop]; [lia|]; rewrite Hloop
  end.
  destruct r as [e|]; [done|].
  destruct (_ <=? _); [apply load_fetch_not_OutOfFuel | done].
Qed.

(** The bounded loop of the model has all the iterations it needs: a call
    of [get] returns a shared pointer or throws. *)
Lemma get_fuel_suffices (L : Loader) (T : PixType) (path : string) (level : Z) (w : World) :
  (get L T path level w).1 ≠ OutOfFuel.
Proof.
  unfold get.
  destruct (list_find _ _) as [[i k]|]; [apply fetch_not_OutOfFuel|].
  destruct (readImageSize L path) as [[width height]|]; [|done].
  destruct (_ <=? _);
    [apply load_fetch_not_OutOfFuel | apply admit_evicting_not_OutOfFuel].
Qed.

(** ** The branches of [get] *)

Lemma get_hit (L : Loader) (T : PixType) (path : string) (level : Z) (w : World) :
  reqKey_of T path level ∈ _keys (cache w) →
  ∃ i, _keys (cache w) !! i = Some (reqKey_of T path level) ∧
       get L T path level w =
       fetch T (reqKey_of T path level)
         (with_keys (delete i (_keys (cache w)) ++ [reqKey_of T path level]) w).
Proof.
  intros Hin. destruct (list_find_key_elem _ _ Hin) as [i Hi].
  exists i. split; [by apply list_find_key_Some in Hi as [? _]|].
  unfold get. by rewrite Hi.
Qed.

Lemma get_miss (L : Loader) (T : PixType) (path : string) (level : Z) (w : World) :
  reqKey_of T path level ∉ _keys (cache w) →
  get L T path level w =
  let w0 := log_io (EvReadImageSize path) w in
  match readImageSize L path with
  | None => (Threw LoaderError, w0)
  | Some (width, height) =>
      let memSize := required_memSize T width height level in
      if int_add memSize (contentSize (_memUsage (cache w))) <=? capacity (_memUsage (cache w))
      then load_fetch L T (reqKey_of T path level) w0
      else admit_evicting L T (reqKey_of T path level) memSize w0
  end.
Proof.
  intros Hnot. unfold get.
  destruct (list_find _ _) as [[i k]|] eqn:Hfind; [|done].
  apply list_find_key_Some in Hfind as [Hi _].
  exfalso. apply Hnot. by eapply list_elem_of_lookup_2.
Qed.

Lemma Inv_unmapped (w : World) (key : CacheKey) :
  Inv w → key ∉ _keys (cache w) → _imagePtrs (cache w) !! key = None.
Proof.
  intros HI Hnot. destruct (_imagePtrs (cache w) !! key) eqn:E; [|done].
  exfalso. apply Hnot, (inv_dom w HI). by rewrite E.
Qed.

Lemma load_fetch_ok (L : Loader) (T : PixType) (key : CacheKey) (w : World) (bytes : Z) :
  _imagePtrs (cache w) !! key = None →
  readImage L T (filename key) (int_shl 1 (halfSampleLevel key)) = Some bytes →
  load_fetch L T key w = (Returned (Some (length (heap w))), admitted T key bytes w).
Proof.
  intros Hnone Hread. unfold load_fetch, load. rewrite Hread. simpl.
  rewrite bool_decide_eq_true_2 by done.
  unfold fetch. simpl. rewrite lookup_insert_eq, CacheValue_get_wrap. simpl.
  unfold admitted. f_equal. f_equal.
  - do 2 f_equal. unfold memorySize.
    rewrite CacheValue_ptr_wrap, lookup_app_r, Nat.sub_diag by lia. done.
  - unfold sp_copy.
    rewrite alter_app_r_alt, Nat.sub_diag by lia. done.
Qed.

Lemma load_fetch_fail (L : Loader) (T : PixType) (key : CacheKey) (w : World) :
  readImage L T (filename key) (int_shl 1 (halfSampleLevel key)) = None →
  load_fetch L T key w = (Threw LoaderError, log_io (EvReadImage (filename key)) w).
Proof. intros Hread. unfold load_fetch, load. by rewrite Hread. Qed.

(** ** What a call that returns an image leaves *)

Lemma fetch_returned (T : PixType) (key : CacheKey) (w : World) (p : ptr) (w' : World) :
  fetch T key w = (Returned (Some p), w') →
  ∃ v, _imagePtrs (cache w) !! key = Some v ∧ CacheValue_get T v = Some p ∧
       w' = copy_handle p w.
Proof.
  unfold fetch. destruct (_imagePtrs (cache w) !! key) as [v|]; [|done].
  intros [= Hget <-]. exists v. by rewrite Hget.
Qed.

Lemma load_keys (L : Loader) (T : PixType) (key : CacheKey) (w : World) w' :
  load L T key w = (None, w') →
  _keys (cache w') = _keys (cache w) ++ [key] ∧
  ioLog w' = ioLog w ++ [EvReadImage (filename key)].
Proof.
  unfold load. destruct (readImage L T _ _); [|done]. by intros [= <-].
Qed.

Lemma load_fetch_returned (L : Loader) (T : PixType) (key : CacheKey) (w : World)
    (p : ptr) (w' : World) :
  load_fetch L T key w = (Returned (Some p), w') →
  ∃ v w1, _imagePtrs (cache w1) !! key = Some v ∧ CacheValue_get T v = Some p ∧
          w' = copy_handle p w1 ∧
          _keys (cache w1) = _keys (cache w) ++ [key] ∧
          ioLog w1 = ioLog w ++ [EvReadImage (filename key)].
Proof.
  unfold load_fetch. destruct (load L T key w) as [[e|] w1] eqn:Hload; [done|].
  intros (v & Hv & Hget & ->)%fetch_returned.
  apply load_keys in Hload as [? ?]. by exists v, w1.
Qed.

Lemma erase_entry_ioLog i key value w :
  ioLog (erase_entry i key value w) = ioLog w.
Proof. done. Qed.

Lemma evict_loop_ioLog (fuel : nat) (missingCapacity : Z) (w : World) r w' :
  evict_loop fuel missingCapacity w = Some (r, w') → ioLog w' = ioLog w.
Proof.
  revert w. induction fuel as [|fuel IH]; intros w H; [done|].
  simpl in H. destruct (0 <? missingCapacity); [|by simplify_eq].
  destruct (scan_from _ _ _ _); [|by simplify_eq..].
  by apply IH in H.
Qed.

(** A call of [get] that returns an image leaves its key at the most
    recently used end, mapped to a value whose slot for the pixel type is
    that image, and the caller holds one more handle of it. The loader has
    been asked for an image once if the key was not cached, and not at all
    if it was. *)
Lemma get_returned (L : Loader) (T : PixType) (path : string) (level : Z)
    (w : World) (p : ptr) (w' : World) :
  get L T path level w = (Returned (Some p), w') →
  ∃ v w1 ks,
    w' = copy_handle p w1 ∧
    _imagePtrs (cache w1) !! reqKey_of T path level = Some v ∧
    CacheValue_get T v = Some p ∧
    _keys (cache w1) = ks ++ [reqKey_of T path level] ∧
    loads (ioLog w') =
      loads (ioLog w) + (if decide (reqKey_of T path level ∈ _keys (cache w)) then 0 else 1).
Proof.
  intros H. destruct (decide (reqKey_of T path level ∈ _keys (cache w))) as [Hin|Hnot].
  - destruct (get_hit L T path level w Hin) as (i & Hi & Heq).
    rewrite Heq in H. apply fetch_returned in H as (v & Hv & Hget & ->).
    exists v, (with_keys (delete i (_keys (cache w)) ++ [reqKey_of T path level]) w),
      (delete i (_keys (cache w))).
    repeat split; try done. simpl. lia.
  - rewrite (get_miss L T path level w Hnot) in H. simpl in H.
    destruct (readImageSize L path) as [[width height]|]; [|done].
    assert (Hlog : ∀ w2 : World,
              ioLog w2 = ioLog w ++ [EvReadImageSize path] →
              load_fetch L T (reqKey_of T path level) w2 = (Returned (Some p), w') →
              ∃ v w1 ks,
                w' = copy_handle p w1 ∧
                _imagePtrs (cache w1) !! reqKey_of T path level = Some v ∧
                CacheValue_get T v = Some p ∧
                _keys (cache w1) = ks ++ [reqKey_of T path level] ∧
                loads (ioLog w') = loads (ioLog w) + 1).
    { intros w2 Hio (v & w1 & Hv & Hget & -> & Hks & Hio1)%load_fetch_returned.
      exists v, w1, (_keys (cache w2)). repeat split; try done.
      simpl. rewrite Hio1, Hio. unfold loads. rewrite !sum_over_app. simpl. lia. }
    case_match; [by apply (Hlog (log_io (EvReadImageSize path) w))|].
    unfold admit_evicting in H.
    destruct (scan_from (fits_unused _ _) _ _ _) as [i key value| |]; [| |done].
    + by apply (Hlog (erase_entry i key value (log_io (EvReadImageSize path) w))).
    + destruct (evict_loop _ _ _) as [[[e|] w2]|] eqn:Hloop; [done| |done].
      case_match; [|done].
      apply evict_loop_ioLog in Hloop. by apply (Hlog w2).
Qed.

Lemma Inv_get_keep (L : Loader) (T : PixType) (path : string) (level : Z) (w : World) :
  Inv w → Inv (get_keep L T path level w).
Proof. apply Inv_get. Qed.

Lemma Inv_get_drop (L : Loader) (T : PixType) (path : string) (level : Z) (w : World) :
  Inv w → Inv (get_drop L T path level w).
Proof.
  intros HI. unfold get_drop.
  pose proof (Inv_get L T path level w HI) as HI'.
  destruct (get L T path level w) as [[[p|]| |] w'] eqn:Hget; try done.
  apply get_returned in Hget as (v & w1 & ks & -> & _).
  apply Inv_release_handle; [left | done].
Qed.

Lemma admit_evicting_found (L : Loader) (T : PixType) (reqKey : CacheKey)
    (memSize : Z) (w0 : World) i key value :
  scan_from
    (fits_unused (heap w0)
       (int_sub (int_add memSize (contentSize (_memUsage (cache w0))))
          (capacity (_memUsage (cache w0)))))
    (_imagePtrs (cache w0)) 0 (_keys (cache w0)) = ScanFound i key value →
  admit_evicting L T reqKey memSize w0 =
  load_fetch L T reqKey (erase_entry i key value w0).
Proof. intros H. unfold admit_evicting. by rewrite H. Qed.

Lemma erase_entry_heap_length i key value (w : World) :
  length (heap (erase_entry i key value w)) = length (heap w).
Proof.
  unfold erase_entry. cbn [heap].
  destruct (_imagePtrs (cache w) !! key) as [erased|]; [|done].
  unfold CacheValue_destroy. cbn [foldr].
  repeat (case_match; unfold sp_drop; rewrite ?length_alter); done.
Qed.

(** ** What the evictions leave untouched *)

Lemma erase_entry_other (i : nat) (key : CacheKey) (value : CacheValue) (w : World)
    (k : CacheKey) :
  Inv w →
  _imagePtrs (cache w) !! key = Some value →
  k ≠ key →
  _imagePtrs (cache (erase_entry i key value w)) !! k = _imagePtrs (cache w) !! k ∧
  entry_useCount (erase_entry i key value w) k = entry_useCount w k.
Proof.
  intros HI Hkey Hne.
  assert (Hmap : _imagePtrs (cache (erase_entry i key value w)) !! k =
                 _imagePtrs (cache w) !! k) by by apply lookup_delete_ne.
  split; [done|].
  unfold entry_useCount. rewrite Hmap.
  destruct (_imagePtrs (cache w) !! k) as [v|] eqn:Hk; [|done].
  simpl. rewrite Hkey.
  destruct (inv_typed w HI key value Hkey) as (T & p & -> & _).
  destruct (inv_typed w HI k v Hk) as (T' & q & -> & _).
  rewrite CacheValue_destroy_wrap. unfold sp_drop, useCount.
  rewrite CacheValue_ptr_wrap, list_lookup_alter_ne; [done|].
  intros ->. apply Hne. apply (inv_distinct w HI k key q); unfold holds.
  - by rewrite Hk; simpl; rewrite CacheValue_ptr_wrap.
  - by rewrite Hkey; simpl; rewrite CacheValue_ptr_wrap.
Qed.

Lemma filter_ext_in {A} (P Q : A → Prop) `{∀ x, Decision (P x)} `{∀ x, Decision (Q x)}
    (l : list A) :
  (∀ x, x ∈ l → P x ↔ Q x) → filter P l = filter Q l.
Proof.
  induction l as [|x l IH]; intros Hl; [done|].
  rewrite !filter_cons.
  rewrite IH by (intros y Hy; apply Hl; by right).
  destruct (Hl x) as [H1 H2]; [left|].
  destruct (decide (P x)), (decide (Q x)); tauto || done.
Qed.

Lemma filter_all {A} (P : A → Prop) `{∀ x, Decision (P x)} (l : list A) :
  (∀ x, x ∈ l → P x) → filter P l = l.
Proof.
  induction l as [|x l IH]; intros Hl; [done|].
  rewrite filter_cons_True by (apply Hl; left).
  f_equal. apply IH. intros y Hy. apply Hl. by right.
Qed.

Lemma entry_useCount_found (w : World) (key : CacheKey) (value : CacheValue) :
  _imagePtrs (cache w) !! key = Some value →
  entry_useCount w key = useCount (heap w) value.
Proof. intros H. unfold entry_useCount. by rewrite H. Qed.

(** The loop of the second pass, entered with a positive missing capacity,
    ends when no entry with use count 1 is left: it removes all of them,
    whatever their sizes, and leaves the other entries as they were. *)
Lemma evict_loop_all (fuel : nat) (missingCapacity : Z) (w : World) r w' :
  Inv w → 0 < missingCapacity →
  evict_loop fuel missingCapacity w = Some (r, w') →
  r = None ∧ Inv w' ∧
  _keys (cache w') = filter (λ k, entry_useCount w k ≠ 1) (_keys (cache w)) ∧
  (∀ k, k ∈ _keys (cache w') →
     _imagePtrs (cache w') !! k = _imagePtrs (cache w) !! k ∧
     entry_useCount w' k = entry_useCount w k) ∧
  handles w' = handles w ∧ ioLog w' = ioLog w ∧
  length (heap w') = length (heap w) ∧
  capacity (_memUsage (cache w')) = capacity (_memUsage (cache w)) ∧
  maxSize (_memUsage (cache w')) = maxSize (_memUsage (cache w)).
Proof.
  intros HI Hpos. revert w HI. induction fuel as [|fuel IH]; intros w HI H; [done|].
  simpl in H. rewrite (proj2 (Z.ltb_lt _ _) Hpos) in H.
  destruct (scan_from _ _ _ _) as [i key value| |] eqn:Hscan.
  - apply scan_from_found in Hscan as (n & -> & Hn & Hm & HP & Hbefore).
    simpl in *.
    assert (HI1 : Inv (erase_entry n key value w)) by by apply Inv_erase_entry.
    destruct (IH _ HI1 H) as (-> & HI' & Hks & Hsame & Hh & Hio & Hlen & Hc & Hmx).
    destruct (delete_split _ _ _ Hn) as (pre & post & Heq & Hdel & Hlen1).
    assert (Hkeyuse : entry_useCount w key = 1).
    { rewrite (entry_useCount_found w key value Hm). by apply Z.eqb_eq. }
    assert (Hne : ∀ k, k ∈ pre ++ post → k ≠ key).
    { intros k Hk ->. pose proof (inv_nodup w HI) as Hnd. rewrite Heq in Hnd.
      apply NoDup_app in Hnd as (_ & Ha & Hb). apply NoDup_cons in Hb as [Hb _].
      apply elem_of_app in Hk as [Hk|Hk]; [|done]. apply (Ha key Hk). left. }
    split; [done|]. split; [done|]. split.
    { rewrite Hks, erase_entry_keys, Hdel, Heq.
      rewrite (filter_ext_in _ (λ k, entry_useCount w k ≠ 1) (pre ++ post)).
      2:{ intros k Hk.
          destruct (erase_entry_other n key value w k HI Hm (Hne k Hk)) as [_ ->].
          done. }
      rewrite !filter_app, filter_cons_False; [done|]. by intros ?. }
    split.
    { intros k Hk. destruct (Hsame k Hk) as [-> ->].
      assert (k ∈ pre ++ post).
      { rewrite Hks in Hk. apply list_elem_of_filter in Hk as [_ Hk].
        by rewrite erase_entry_keys, Hdel in Hk. }
      by apply erase_entry_other; [| |apply Hne]. }
    rewrite Hh, Hio, Hlen, Hc, Hmx, erase_entry_heap_length.
    repeat split; reflexivity.
  - injection H as <- <-.
    split; [done|]. split; [done|]. split.
    { symmetry. apply filter_all. intros k Hk.
      apply (scan_from_end _ _ _ _ Hscan) in Hk as (v & Hv & HP).
      rewrite (entry_useCount_found w k v Hv). by apply Z.eqb_neq. }
    repeat split; reflexivity.
  - by apply scan_from_Inv in Hscan.
Qed.

(** ** The entries that a call removes *)

Lemma fetch_cache (T : PixType) (key : CacheKey) (w : World) :
  cache (fetch T key w).2 = cache w.
Proof.
  unfold fetch. destruct (_imagePtrs (cache w) !! key) as [v|]; [|done].
  cbn [snd]. by destruct (CacheValue_get T v).
Qed.

Lemma load_keys_mono (L : Loader) (T : PixType) (key : CacheKey) (w : World) k :
  k ∈ _keys (cache w) → k ∈ _keys (cache (load L T key w).2).
Proof.
  intros Hk. unfold load. destruct (readImage L T _ _); [|done].
  cbn [snd cache _keys]. apply elem_of_app. by left.
Qed.

Lemma load_fetch_keys_mono (L : Loader) (T : PixType) (key : CacheKey) (w : World) k :
  k ∈ _keys (cache w) → k ∈ _keys (cache (load_fetch L T key w).2).
Proof.
  intros Hk. unfold load_fetch.
  pose proof (load_keys_mono L T key w k Hk) as H.
  destruct (load L T key w) as [[e|] w']; [done|].
  by rewrite fetch_cache.
Qed.

Lemma evict_loop_skip (fuel : nat) (missingCapacity : Z) (w : World) :
  missingCapacity <= 0 → evict_loop (S fuel) missingCapacity w = Some (None, w).
Proof.
  intros H. cbn [evict_loop]. by rewrite (proj2 (Z.ltb_ge _ _) H).
Qed.

(** An entry that the admission with eviction removes had a use count of
    exactly 1. *)
Lemma admit_evicting_evicted (L : Loader) (T : PixType) (reqKey : CacheKey)
    (memSize : Z) (w : World) (k : CacheKey) :
  Inv w →
  k ∈ _keys (cache w) →
  k ∉ _keys (cache (admit_evicting L T reqKey memSize w).2) →
  entry_useCount w k = 1.
Proof.
  intros HI Hk Hgone. unfold admit_evicting in Hgone.
  destruct (scan_from (fits_unused _ _) _ _ _) as [i key value| |] eqn:Hscan.
  - apply scan_from_found in Hscan as (n & -> & Hn & Hm & HP & _).
    destruct (decide (k = key)) as [->|Hne].
    + rewrite (entry_useCount_found w key value Hm).
      unfold fits_unused in HP. apply andb_prop in HP as [HP _].
      by apply Z.eqb_eq.
    + exfalso. apply Hgone, load_fetch_keys_mono.
      rewrite erase_entry_keys. change (0 + n)%nat with n.
      destruct (delete_split _ _ _ Hn) as (pre & post & Heq & Hdel & _).
      rewrite Hdel. rewrite Heq in Hk.
      apply elem_of_app in Hk as [Hk|Hk]; apply elem_of_app; [by left|].
      apply elem_of_cons in Hk as [Hk|Hk]; [done | by right].
  - destruct (decide (0 < int_sub (int_add memSize (contentSize (_memUsage (cache w))))
                                  (capacity (_memUsage (cache w))))) as [Hpos|Hneg].
    + destruct (evict_loop _ _ _) as [[r w2]|] eqn:Hloop; [|done].
      destruct (evict_loop_all _ _ _ _ _ HI Hpos Hloop) as (-> & _ & Hks & _).
      destruct (decide (entry_useCount w k = 1)) as [|Hne]; [done|].
      exfalso.
      assert (Hk2 : k ∈ _keys (cache w2))
        by (rewrite Hks; by apply list_elem_of_filter).
      destruct (_ <=? _); [|done].
      by apply Hgone, load_fetch_keys_mono.
    + exfalso. rewrite evict_loop_skip in Hgone by lia.
      destruct (_ <=? _); [|done].
      by apply Hgone, load_fetch_keys_mono.
  - done.
Qed.

(** An entry whose use count is 1 is owned by the cache alone: no caller
    holds a handle of its image. *)
Lemma unreferenced_not_held (w : World) (k : CacheKey) (p : ptr) :
  Inv w → k ∈ _keys (cache w) →
  entry_useCount w k = 1 →
  holds (_imagePtrs (cache w)) p k → p ∉ handles w.
Proof.
  intros HI Hk Huse Hholds Hheld.
  unfold holds in Hholds. unfold entry_useCount in Huse.
  destruct (_imagePtrs (cache w) !! k) as [v|] eqn:Hv; [|done].
  destruct (inv_typed w HI k v Hv) as (T & q & -> & _ & _ & Hq).
  cbn in Hholds. rewrite CacheValue_ptr_wrap in Hholds. injection Hholds as ->.
  destruct (lookup_lt_is_Some_2 (heap w) p Hq) as [b Hb].
  rewrite (useCount_wrap _ _ _ b Hb) in Huse.
  pose proof (inv_refs w HI p b Hb) as Hrefs.
  assert (1 <= owners (_imagePtrs (cache w)) (_keys (cache w)) p).
  { apply (owners_holder _ _ _ k Hk). unfold holds. rewrite Hv. cbn.
    apply CacheValue_ptr_wrap. }
  pose proof (held_elem _ _ Hheld). lia.
Qed.

(** ** The outcome of the second pass *)

Lemma evict_loop_result (fuel : nat) (missingCapacity : Z) (w : World) r w' :
  Inv w →
  evict_loop fuel missingCapacity w = Some (r, w') →
  r = None ∧ Inv w' ∧
  (∀ k, k ∈ _keys (cache w') →
     k ∈ _keys (cache w) ∧ _imagePtrs (cache w') !! k = _imagePtrs (cache w) !! k) ∧
  (∀ k, k ∈ _keys (cache w) → k ∉ _keys (cache w') → entry_useCount w k = 1) ∧
  handles w' = handles w ∧ ioLog w' = ioLog w ∧
  length (heap w') = length (heap w) ∧
  capacity (_memUsage (cache w')) = capacity (_memUsage (cache w)) ∧
  maxSize (_memUsage (cache w')) = maxSize (_memUsage (cache w)).
Proof.
  intros HI Hloop.
  destruct (decide (0 < missingCapacity)) as [Hpos|Hneg].
  - destruct (evict_loop_all _ _ _ _ _ HI Hpos Hloop)
      as (-> & HI' & Hks & Hsame & Hh & Hio & Hlen & Hc & Hm).
    split; [done|]. split; [done|]. split.
    { intros k Hk. split; [|by apply Hsame].
      rewrite Hks in Hk. by apply list_elem_of_filter in Hk as [_ Hk]. }
    split; [|done].
    intros k Hk Hgone.
    destruct (decide (entry_useCount w k = 1)) as [|Hne]; [done|].
    exfalso. apply Hgone. rewrite Hks. by apply list_elem_of_filter.
  - destruct fuel as [|fuel]; [done|].
    rewrite evict_loop_skip in Hloop by lia. injection Hloop as <- <-.
    split; [done|]. split; [done|]. split; [by intros k Hk|].
    split; [by intros k Hk Hgone|]. repeat split; reflexivity.
Qed.

(** When every entry is referenced by a caller, the eviction passes find
    nothing to remove. *)
Lemma admit_evicting_all_referenced (L : Loader) (T : PixType) (reqKey : CacheKey)
    (memSize : Z) (w : World) :
  Inv w →
  (∀ k, k ∈ _keys (cache w) → entry_useCount w k ≠ 1) →
  admit_evicting L T reqKey memSize w =
  if int_add memSize (contentSize (_memUsage (cache w))) <=? maxSize (_memUsage (cache w))
  then load_fetch L T reqKey w
  else (Threw NotEnoughSpace, w).
Proof.
  intros HI Hall.
  assert (Hnone : ∀ P : CacheValue → bool,
            (∀ v, P v = true → useCount (heap w) v = 1) →
            scan_from P (_imagePtrs (cache w)) 0 (_keys (cache w)) = ScanEnd).
  { intros P HP. apply scan_from_none. intros k Hk.
    pose proof (Hall k Hk) as Hne.
    apply (inv_dom w HI) in Hk as [v Hv]. exists v. split; [done|].
    rewrite (entry_useCount_found w k v Hv) in Hne.
    destruct (P v) eqn:E; [|done]. by apply HP in E. }
  unfold admit_evicting. rewrite Hnone.
  2:{ intros v Hv. unfold fits_unused in Hv. apply andb_prop in Hv as [Hv _].
      by apply Z.eqb_eq. }
  cbn [evict_loop]. rewrite Hnone.
  2:{ intros v Hv. by apply Z.eqb_eq. }
  by destruct (0 <? _).
Qed.

Lemma fetch_not_exhausted (T : PixType) (key : CacheKey) (w : World) :
  (fetch T key w).1 ≠ Threw NotEnoughSpace.
Proof. unfold fetch. by destruct (_imagePtrs (cache w) !! key). Qed.

Lemma load_fetch_not_exhausted (L : Loader) (T : PixType) (key : CacheKey) (w : World) :
  (load_fetch L T key w).1 ≠ Threw NotEnoughSpace.
Proof.
  unfold load_fetch. destruct (load L T key w) as [[e|] w'] eqn:Hload.
  - unfold load in Hload. destruct (readImage L T _ _); [done|].
    injection Hload as <- <-. done.
  - apply fetch_not_exhausted.
Qed.

(** ** The sums over the map and over the recency list *)

Lemma resident_bytes_keys (h : list Block) (ks : list CacheKey)
    (m : gmap CacheKey CacheValue) :
  NoDup ks →
  (∀ k, k ∈ ks ↔ is_Some (m !! k)) →
  resident_bytes h m = content_sum h m ks.
Proof.
  unfold resident_bytes, content_sum.
  revert m. induction ks as [|k ks IH]; intros m Hnd Hdom.
  - assert (m = ∅) as ->.
    { apply map_empty. intros k. destruct (m !! k) eqn:E; [|done].
      exfalso. eapply elem_of_nil, Hdom. by rewrite E. }
    by rewrite map_fold_empty.
  - apply NoDup_cons in Hnd as [Hk Hnd].
    destruct (proj1 (Hdom k)) as [v Hv]; [left|].
    rewrite (map_fold_delete_L _ _ k v m); [|intros; lia|done].
    cbn [sum_over foldr]. unfold entry_size at 1. rewrite Hv. f_equal.
    rewrite (IH (delete k m)); [|done|].
    + apply sum_over_ext. intros k' Hk'. unfold entry_size.
      rewrite lookup_delete_ne; [done|]. by intros ->.
    + intros k'. rewrite lookup_delete. case_decide.
      * subst k'. split; [done | by intros [? ?]].
      * rewrite <- Hdom. split; [by right|].
        intros [->|?]%elem_of_cons; done.
Qed.

Lemma Inv_dom_keys (w : World) :
  Inv w → dom (_imagePtrs (cache w)) = list_to_set (_keys (cache w)).
Proof.
  intros HI. apply set_eq. intros k.
  rewrite elem_of_dom, elem_of_list_to_set. symmetry. apply (inv_dom w HI).
Qed.

Lemma Inv_size_keys (w : World) :
  Inv w → size (_imagePtrs (cache w)) = length (_keys (cache w)).
Proof.
  intros HI. rewrite <- size_dom, (Inv_dom_keys w HI).
  apply size_list_to_set, (inv_nodup w HI).
Qed.

Lemma reachable_get_keep (c m : Z) (L : Loader) (T : PixType) (path : string)
    (level : Z) (w : World) :
  reachable c m w → reachable c m (get_keep L T path level w).
Proof. apply reach_get. Qed.

Lemma reachable_get_drop (c m : Z) (L : Loader) (T : PixType) (path : string)
    (level : Z) (w : World) :
  reachable c m w → reachable c m (get_drop L T path level w).
Proof.
  intros Hr. unfold get_drop.
  pose proof (reach_get c m L T path level w Hr) as Hr'.
  destruct (get L T path level w) as [[[p|]| |] w'] eqn:Hget; try done.
  apply reach_release; [done|].
  apply get_returned in Hget as (v & w1 & ks & -> & _). left.
Qed.

Lemma delete_split_elem {A} (l : list A) (x : A) :
  x ∈ l → ∃ l1 l2, l = l1 ++ x :: l2.
Proof. intros H. by apply list_elem_of_split. Qed.

(** ** What a call leaves of the other entries *)

Lemma fetch_handles (T : PixType) (key : CacheKey) (w : World) (p : ptr) :
  p ∈ handles w → p ∈ handles (fetch T key w).2.
Proof.
  intros Hp. unfold fetch. destruct (_imagePtrs (cache w) !! key) as [v|]; [|done].
  cbn [snd]. destruct (CacheValue_get T v); [by right | done].
Qed.

Lemma load_fetch_frame (L : Loader) (T : PixType) (key : CacheKey) (w : World)
    (k : CacheKey) :
  k ≠ key →
  (k ∈ _keys (cache (load_fetch L T key w).2) ↔ k ∈ _keys (cache w)) ∧
  _imagePtrs (cache (load_fetch L T key w).2) !! k = _imagePtrs (cache w) !! k.
Proof.
  intros Hne. unfold load_fetch, load.
  destruct (readImage L T _ _) as [bytes|]; [|done].
  rewrite fetch_cache. cbn [cache _keys _imagePtrs log_io].
  split.
  - rewrite elem_of_app, list_elem_of_singleton.
    split; [by intros [?|?] | by left].
  - destruct (bool_decide _); [by rewrite lookup_insert_ne | done].
Qed.

Lemma load_fetch_handles (L : Loader) (T : PixType) (key : CacheKey) (w : World)
    (p : ptr) :
  p ∈ handles w → p ∈ handles (load_fetch L T key w).2.
Proof.
  intros Hp. unfold load_fetch, load.
  destruct (readImage L T _ _) as [bytes|]; [|done].
  by apply fetch_handles.
Qed.

Lemma NoDup_delete_ne {A} (l : list A) (i : nat) (x y : A) :
  NoDup l → l !! i = Some x → y ∈ delete i l → y ≠ x.
Proof.
  intros Hnd Hi Hy ->.
  destruct (delete_split _ _ _ Hi) as (l1 & l2 & -> & Hdel & _).
  rewrite Hdel in Hy.
  apply NoDup_app in Hnd as (_ & Ha & Hb). apply NoDup_cons in Hb as [Hb _].
  apply elem_of_app in Hy as [Hy|Hy]; [|done]. apply (Ha x Hy). left.
Qed.

Lemma admit_evicting_frame (L : Loader) (T : PixType) (reqKey : CacheKey)
    (memSize : Z) (w : World) :
  Inv w →
  (∀ k, k ≠ reqKey → k ∈ _keys (cache (admit_evicting L T reqKey memSize w).2) →
     k ∈ _keys (cache w) ∧
     _imagePtrs (cache (admit_evicting L T reqKey memSize w).2) !! k
       = _imagePtrs (cache w) !! k) ∧
  (∀ p, p ∈ handles w → p ∈ handles (admit_evicting L T reqKey memSize w).2).
Proof.
  intros HI. unfold admit_evicting.
  destruct (scan_from (fits_unused _ _) _ _ _) as [i key value| |] eqn:Hscan.
  - apply scan_from_found in Hscan as (n & -> & Hn & Hm & _).
    change (0 + n)%nat with n. split.
    + intros k Hne Hk.
      destruct (load_fetch_frame L T reqKey (erase_entry n key value w) k Hne)
        as [Hiff ->].
      apply Hiff in Hk. rewrite erase_entry_keys in Hk.
      split; [by eapply elem_of_delete|].
      apply erase_entry_other; [done | done |].
      by apply (NoDup_delete_ne _ n _ _ (inv_nodup w HI) Hn).
    + intros p Hp. by apply load_fetch_handles.
  - destruct (evict_loop _ _ _) as [[r w2]|] eqn:Hloop; [|done].
    destruct (evict_loop_result _ _ _ _ _ HI Hloop)
      as (-> & HI2 & Hsub & _ & Hh & _).
    destruct (_ <=? _).
    + split.
      * intros k Hne Hk.
        destruct (load_fetch_frame L T reqKey w2 k Hne) as [Hiff ->].
        by apply Hsub, Hiff.
      * intros p Hp. apply load_fetch_handles. by rewrite Hh.
    + cbn [snd]. split; [intros k _ Hk; by apply Hsub|].
      intros p Hp. by rewrite Hh.
  - done.
Qed.

Lemma get_evicted_useCount (L : Loader) (T : PixType) (path : string) (level : Z)
    (w : World) (k : CacheKey) :
  Inv w →
  k ∈ _keys (cache w) →
  k ∉ _keys (cache (get L T path level w).2) →
  entry_useCount w k = 1.
Proof.
  intros HI Hk Hgone.
  destruct (decide (reqKey_of T path level ∈ _keys (cache w))) as [Hin|Hnot].
  - exfalso. destruct (get_hit L T path level w Hin) as (i & Hi & Heq).
    rewrite Heq, fetch_cache in Hgone. apply Hgone.
    cbn [with_keys with_cache cache _keys].
    by rewrite (promote_perm _ _ _ Hi).
  - rewrite (get_miss L T path level w Hnot) in Hgone. cbv zeta in Hgone.
    destruct (readImageSize L path) as [[width height]|]; [|done].
    destruct (_ <=? _).
    + exfalso. by apply Hgone, load_fetch_keys_mono.
    + apply (admit_evicting_evicted L T _ _ (log_io (EvReadImageSize path) w) k)
        in Hgone; [done | by apply Inv_log_io | done].
Qed.

(** The entries that a call of [get] does not ask for are left with their
    values or evicted, and the callers keep their handles. *)
Lemma get_frame (L : Loader) (T : PixType) (path : string) (level : Z) (w : World) :
  Inv w →
  (∀ k, k ≠ reqKey_of T path level → k ∈ _keys (cache (get L T path level w).2) →
     k ∈ _keys (cache w) ∧
     _imagePtrs (cache (get L T path level w).2) !! k = _imagePtrs (cache w) !! k) ∧
  (∀ p, p ∈ handles w → p ∈ handles (get L T path level w).2).
Proof.
  intros HI.
  destruct (decide (reqKey_of T path level ∈ _keys (cache w))) as [Hin|Hnot].
  - destruct (get_hit L T path level w Hin) as (i & Hi & ->).
    rewrite fetch_cache. cbn [with_keys with_cache cache _keys _imagePtrs].
    split; [|intros p Hp; by apply fetch_handles].
    intros k Hne Hk. split; [|done]. by rewrite (promote_perm _ _ _ Hi) in Hk.
  - rewrite (get_miss L T path level w Hnot). cbv zeta.
    destruct (readImageSize L path) as [[width height]|]; [|done].
    destruct (_ <=? _).
    + split; [|intros p Hp; by apply load_fetch_handles].
      intros k Hne Hk.
      destruct (load_fetch_frame L T _ (log_io (EvReadImageSize path) w) k Hne)
        as [Hiff ->].
      split; [by apply Hiff in Hk | done].
    + apply (admit_evicting_frame L T _ _ (log_io (EvReadImageSize path) w)).
      by apply Inv_log_io.
Qed.

(** A scan over a consistent state ends without a find only if no value
    satisfies the condition. *)
Lemma scan_from_exists P (w : World) (k : CacheKey) (v : CacheValue) :
  k ∈ _keys (cache w) → _imagePtrs (cache w) !! k = Some v → P v = true →
  scan_from P (_imagePtrs (cache w)) 0 (_keys (cache w)) ≠ ScanEnd.
Proof.
  intros Hk Hv HP Hend.
  destruct (scan_from_end _ _ _ _ Hend k Hk) as (v' & Hv' & HP').
  congruence.
Qed.

(** The admission with eviction when the first pass finds no victim: the
    second pass runs, and the test against [maxSize] decides. *)
Lemma admit_evicting_second_pass (L : Loader) (T : PixType) (reqKey : CacheKey)
    (memSize : Z) (w : World) :
  Inv w →
  (∀ k v, k ∈ _keys (cache w) → _imagePtrs (cache w) !! k = Some v →
     fits_unused (heap w)
       (int_sub (int_add memSize (contentSize (_memUsage (cache w))))
          (capacity (_memUsage (cache w)))) v = false) →
  ∃ w2,
    evict_loop (S (length (_keys (cache w))))
      (int_sub (int_add memSize (contentSize (_memUsage (cache w))))
         (capacity (_memUsage (cache w)))) w = Some (None, w2) ∧
    admit_evicting L T reqKey memSize w =
    if int_add memSize (contentSize (_memUsage (cache w2))) <=? maxSize (_memUsage (cache w2))
    then load_fetch L T reqKey w2
    else (Threw NotEnoughSpace, w2).
Proof.
  intros HI Hnone.
  match goal with
  | |- context [evict_loop ?f ?m w] =>
      destruct (evict_loop_fuel f m w) as [[r w2] Hloop]; [lia|]
  end.
  destruct (evict_loop_result _ _ _ _ _ HI Hloop) as (-> & _).
  exists w2. split; [done|].
  unfold admit_evicting. rewrite scan_from_none, Hloop; [done|].
  intros k Hk. destruct (proj1 (inv_dom w HI k) Hk) as [v Hv].
  exists v. split; [done | by eapply Hnone].
Qed.

(** * The claims *)

(** ** Construction *)



(** C9. The byte accounting is done on 32-bit signed integers. Each
    threshold is the product of the configured megabytes by 1,000,000
    reduced modulo 2^32 into the signed range, and from 2148 MB on it is
    not the exact product any more (2147 MB is the last exact value, 2148 MB
    gives a negative threshold). The required size of a request is the
    product of the two downscaled dimensions and the pixel size reduced in
    the same way: a 65536 x 65536 image of four float channels has a
    required size of 0. *)
Theorem C9_byte_accounting_wraps (capacity_MB maxSize_MB : Z)
    (T : PixType) (width height level : Z) :
  2148 <= capacity_MB <= int_max →
  2148 <= maxSize_MB <= int_max →
  let mu := CacheMemoryUsage_new capacity_MB maxSize_MB in
  (capacity mu = to_int (capacity_MB * 1000000) ∧ in_int (capacity mu) ∧
   capacity mu ≠ capacity_MB * 1000000) ∧
  (maxSize mu = to_int (maxSize_MB * 1000000) ∧ in_int (maxSize mu) ∧
   maxSize mu ≠ maxSize_MB * 1000000) ∧
  (required_memSize T width height level =
     to_int (Z.quot width (int_shl 1 level) * Z.quot height (int_shl 1 level) * sizeof T) ∧
   in_int (required_memSize T width height level)) ∧
  capacity (CacheMemoryUsage_new 2147 maxSize_MB) = 2147000000 ∧
  capacity (CacheMemoryUsage_new 2148 maxSize_MB) = -2146967296 ∧
  required_memSize PixRGBAf 65536 65536 0 = 0.
Proof.
  intros Hc Hm. simpl. unfold int_mul.
  pose proof (to_int_range (capacity_MB * 1000000)) as Rc.
  pose proof (to_int_range (maxSize_MB * 1000000)) as Rm.
  repeat split; try apply Rc; try apply Rm.
  - unfold in_int, int_min, int_max in Rc. lia.
  - unfold in_int, int_min, int_max in Rm. lia.
  - apply required_memSize_wrap.
  - rewrite required_memSize_wrap. apply to_int_range.
  - rewrite required_memSize_wrap. apply to_int_range.
Qed.

Lemma C9_byte_accounting_witness :
  capacity (CacheMemoryUsage_new 3000 4000) = -1294967296 ∧
  maxSize (CacheMemoryUsage_new 3000 4000) = -294967296 ∧
  required_memSize PixRGB 40000 30000 0 = -694967296.
Proof.
  destruct (C9_byte_accounting_wraps 3000 4000 PixRGB 40000 30000 0)
    as ((H1 & _) & (H2 & _) & (H3 & _) & _);
    [unfold int_max; lia | unfold int_max; lia |].
  rewrite H1, H2, H3. repeat split.
Defined.

(** ** Admission *)

(** C7 (as the code has it). On a miss, with native dimensions that are
    not negative and a level between 0 and 30, the required byte count is
    [(width >> level) * (height >> level) * sizeof(TPix)] as an [int] (the
    exact product whenever it fits). When [memSize + contentSize] is at
    most the capacity, [get] is the direct admission: nothing is evicted,
    and if the loader succeeds the new entry is appended at the most
    recently used end, mapped to a new image, and counted; every other
    entry is as before. When it is more than the capacity, [get] is the
    admission with eviction: with a positive missing capacity an entry of
    use count 1, if there is one, is evicted; and if every entry is
    referenced by a caller nothing is evicted, and the new entry is
    admitted as in the direct case when [memSize + contentSize] is at most
    [maxSize], the call failing otherwise. *)
Theorem C7_required_bytes_and_direct_admission
    (L : Loader) (T : PixType) (path : string) (level : Z) (w : World)
    (width height : Z) :
  Inv w →
  reqKey_of T path level ∉ _keys (cache w) →
  readImageSize L path = Some (width, height) →
  0 <= width → 0 <= height → 0 <= level < 31 →
  let reqKey := reqKey_of T path level in
  let memSize := required_memSize T width height level in
  let exact := Z.shiftr width level * Z.shiftr height level * sizeof T in
  let mu := _memUsage (cache w) in
  let w0 := log_io (EvReadImageSize path) w in
  memSize = to_int exact ∧
  (in_int exact → memSize = exact) ∧
  (in_int (memSize + contentSize mu) →
   int_add memSize (contentSize mu) = contentSize mu + memSize) ∧
  (int_add memSize (contentSize mu) <= capacity mu →
   get L T path level w = load_fetch L T reqKey w0 ∧
   (∀ k, k ∈ _keys (cache w) → k ∈ _keys (cache (get L T path level w).2)) ∧
   (∀ k, k ≠ reqKey →
      _imagePtrs (cache (get L T path level w).2) !! k = _imagePtrs (cache w) !! k) ∧
   ∀ bytes, readImage L T path (int_shl 1 level) = Some bytes →
     get L T path level w = (Returned (Some (length (heap w))), admitted T reqKey bytes w0)) ∧
  (capacity mu < int_add memSize (contentSize mu) →
   get L T path level w = admit_evicting L T reqKey memSize w0) ∧
  (capacity mu < int_add memSize (contentSize mu) →
   0 < int_sub (int_add memSize (contentSize mu)) (capacity mu) →
   (∃ k, k ∈ _keys (cache w) ∧ entry_useCount w k = 1) →
   ∃ k, k ∈ _keys (cache w) ∧ entry_useCount w k = 1 ∧
        k ∉ _keys (cache (get L T path level w).2)) ∧
  (capacity mu < int_add memSize (contentSize mu) →
   (∀ k, k ∈ _keys (cache w) → entry_useCount w k ≠ 1) →
   get L T path level w =
   if int_add memSize (contentSize mu) <=? maxSize mu
   then load_fetch L T reqKey w0
   else (Threw NotEnoughSpace, w0)).
Proof.
  intros HI Hmiss Hprobe Hw Hh Hl. cbv zeta.
  assert (Hmem : required_memSize T width height level =
                 to_int (Z.shiftr width level * Z.shiftr height level * sizeof T)).
  { rewrite required_memSize_wrap. by rewrite !quot_downscale. }
  split; [done|]. split; [intros Hr; by rewrite Hmem, to_int_id|].
  split; [intros Hr; unfold int_add; rewrite to_int_id by done; lia|].
  rewrite (get_miss L T path level w Hmiss), Hprobe. cbv zeta.
  pose proof (Inv_unmapped w _ HI Hmiss) as Hnone.
  pose proof (Inv_log_io (EvReadImageSize path) w HI) as HI0.
  set (w0 := log_io (EvReadImageSize path) w) in *.
  set (M := required_memSize T width height level) in *.
  split.
  { intros Hfit. rewrite (proj2 (Z.leb_le _ _) Hfit).
    split; [done|].
    destruct (readImage L T path (int_shl 1 level)) as [bytes|] eqn:Hread.
    + rewrite (load_fetch_ok L T _ _ bytes) by done.
      split; [intros k Hk; apply elem_of_app; by left|].
      split; [intros k Hk; by apply lookup_insert_ne|].
      by intros ? [= <-].
    + rewrite load_fetch_fail by done. done. }
  split; [intros Hover; by rewrite (proj2 (Z.leb_gt _ _) Hover)|].
  split.
  - intros Hover Hpos (k0 & Hk0 & Huse0).
    rewrite (proj2 (Z.leb_gt _ _) Hover).
    assert (Hgone : ∀ k w1, k ∈ _keys (cache w) → k ∉ _keys (cache w1) →
              k ∉ _keys (cache (load_fetch L T (reqKey_of T path level) w1).2)).
    { intros k w1 Hk Hnot Hin.
      apply (load_fetch_frame L T (reqKey_of T path level) w1 k) in Hin; [done|].
      by intros ->. }
    unfold admit_evicting.
    change (_memUsage (cache w0)) with (_memUsage (cache w)).
    destruct (scan_from (fits_unused _ _) _ _ _) as [i key value| |] eqn:Hscan.
    + apply scan_from_found in Hscan as (n & -> & Hn & Hm & HP & _).
      change (0 + n)%nat with n.
      assert (Hkey : key ∈ _keys (cache w)) by by eapply list_elem_of_lookup_2.
      exists key. split; [done|]. split.
      * rewrite (entry_useCount_found w key value Hm).
        unfold fits_unused in HP. apply andb_prop in HP as [HP _].
        by apply Z.eqb_eq.
      * apply Hgone; [done|]. rewrite erase_entry_keys. intros Hin.
        by apply (NoDup_delete_ne _ n key key (inv_nodup w HI) Hn Hin).
    + destruct (evict_loop _ _ _) as [[r w2]|] eqn:Hloop.
      2:{ exfalso.
          match type of Hloop with
          | evict_loop ?f ?m ?w1 = None =>
              destruct (evict_loop_fuel f m w1) as [? Hsome]; [lia|]
          end.
          by rewrite Hloop in Hsome. }
      destruct (evict_loop_all _ _ _ _ _ HI0 Hpos Hloop) as (-> & _ & Hks & _).
      assert (Hnot2 : k0 ∉ _keys (cache w2)).
      { rewrite Hks. intros [Hne _]%list_elem_of_filter. by apply Hne. }
      exists k0. split; [done|]. split; [done|].
      destruct (_ <=? _); [by apply Hgone | done].
    + by apply (scan_from_Inv _ w0) in Hscan.
  - intros Hover Hall. rewrite (proj2 (Z.leb_gt _ _) Hover).
    by rewrite (admit_evicting_all_referenced L T _ M w0 HI0 Hall).
Qed.

Lemma C7_direct_admission_witness :
  let L := table_loader [("a.png"%string, (2000, 1000))] in
  let w := World_new 10 15 in
  required_memSize PixRGB 2000 1000 1 = 1500 * 1000 ∧
  get L PixRGB "a.png" 1 w =
  (Returned (Some 0%nat),
   admitted PixRGB (reqKey_of PixRGB "a.png" 1) 1500000
     (log_io (EvReadImageSize "a.png") w)).
Proof.
  cbv zeta.
  destruct (C7_required_bytes_and_direct_admission
              (table_loader [("a.png"%string, (2000, 1000))])
              PixRGB "a.png" 1 (World_new 10 15) 2000 1000)
    as (_ & H1 & _ & H2 & _).
  - apply Inv_new.
  - apply not_elem_of_nil.
  - reflexivity.
  - lia.
  - lia.
  - lia.
  - split.
    + apply H1. vm_compute. split; discriminate.
    + destruct H2 as (_ & _ & _ & H2); [vm_compute; discriminate|].
      apply H2. reflexivity.
Defined.

(** C7 as stated fails in its "only if". P, of 4,000,000 bytes, is held by
    its caller in a cache of capacity 10,000,000; an image of 8,000,000
    bytes is requested. [contentSize + required] is 12,000,000, more than
    the capacity, yet the image is admitted with no eviction and no change
    to P, exactly as a direct admission would, because P cannot be evicted
    and 12,000,000 is within [maxSize]. *)
Lemma C7_admitted_over_capacity_counterexample :
  let L := over_capacity_loader in
  let w := over_capacity_state in
  let P := reqKey_of PixUChar "p.png" 0 in
  let B := reqKey_of PixUChar "big.png" 0 in
  let out := get L PixUChar "big.png" 0 w in
  _keys (cache w) = [P] ∧
  capacity (_memUsage (cache w)) = 10000000 ∧
  contentSize (_memUsage (cache w)) = 4000000 ∧
  required_memSize PixUChar 4000 2000 0 = 8000000 ∧
  ¬ (contentSize (_memUsage (cache w)) + required_memSize PixUChar 4000 2000 0
       <= capacity (_memUsage (cache w))) ∧
  out = load_fetch L PixUChar B (log_io (EvReadImageSize "big.png") w) ∧
  out.1 = Returned (Some 1%nat) ∧
  _keys (cache out.2) = [P; B] ∧
  _imagePtrs (cache out.2) !! P = _imagePtrs (cache w) !! P ∧
  nbImages (_memUsage (cache out.2)) = 2 ∧
  contentSize (_memUsage (cache out.2)) = 12000000.
Proof.
  cbv zeta. repeat split; try (vm_compute; reflexivity).
  vm_compute. intros H. by apply H.
Qed.

(** ** The single-victim pass *)

(** C2. On a miss that does not fit in the capacity, let [key] be the first
    entry of the recency order, from the least recently used, whose use
    count is 1 and whose size is at least the missing capacity: every entry
    before it is referenced by a caller or too small. Then [get] evicts
    [key] and only [key], and admits the new entry: the entries before it
    survive whatever their age, and the entries after it are not looked
    at, even those that would fit more tightly. *)
Theorem C2_single_victim_first_fit
    (L : Loader) (T : PixType) (path : string) (level : Z) (w : World)
    (width height : Z) (pre post : list CacheKey) (key : CacheKey) (value : CacheValue) :
  Inv w →
  reqKey_of T path level ∉ _keys (cache w) →
  readImageSize L path = Some (width, height) →
  let reqKey := reqKey_of T path level in
  let memSize := required_memSize T width height level in
  let mu := _memUsage (cache w) in
  let missing := int_sub (int_add memSize (contentSize mu)) (capacity mu) in
  let w0 := log_io (EvReadImageSize path) w in
  capacity mu < int_add memSize (contentSize mu) →
  _keys (cache w) = pre ++ key :: post →
  (∀ k, k ∈ pre →
     entry_useCount w k ≠ 1 ∨ entry_size (heap w) (_imagePtrs (cache w)) k < missing) →
  _imagePtrs (cache w) !! key = Some value →
  useCount (heap w) value = 1 →
  missing <= memorySize (heap w) value →
  let w1 := erase_entry (length pre) key value w0 in
  get L T path level w = load_fetch L T reqKey w1 ∧
  _keys (cache w1) = pre ++ post ∧
  _imagePtrs (cache w1) = delete key (_imagePtrs (cache w)) ∧
  nbImages (_memUsage (cache w1)) = int_sub (nbImages mu) 1 ∧
  contentSize (_memUsage (cache w1)) =
    int_sub (contentSize mu) (memorySize (heap w) value) ∧
  ∀ bytes, readImage L T path (int_shl 1 level) = Some bytes →
    get L T path level w = (Returned (Some (length (heap w))), admitted T reqKey bytes w1) ∧
    _keys (cache (get L T path level w).2) = pre ++ post ++ [reqKey] ∧
    _imagePtrs (cache (get L T path level w).2)
      = <[reqKey := CacheValue_wrap T (length (heap w))]> (delete key (_imagePtrs (cache w))).
Proof.
  intros HI Hmiss Hprobe. cbv zeta. intros Hover Hks Hpre Hkey Huse Hsize.
  pose (reqKey := reqKey_of T path level).
  set (w0 := log_io (EvReadImageSize path) w).
  set (w1 := erase_entry (length pre) key value w0).
  assert (Hget : get L T path level w = load_fetch L T reqKey w1).
  { rewrite (get_miss L T path level w Hmiss), Hprobe. cbv zeta.
    rewrite (proj2 (Z.leb_gt _ _) Hover).
    apply admit_evicting_found.
    change (cache w0) with (cache w). change (heap w0) with (heap w).
    rewrite Hks.
    change (ScanFound (length pre) key value)
      with (ScanFound (0 + length pre) key value).
    apply scan_from_first.
    - intros k Hk.
      assert (Hin : k ∈ _keys (cache w)) by (rewrite Hks, elem_of_app; by left).
      apply (inv_dom w HI) in Hin as [v Hv]. exists v. split; [exact Hv|].
      unfold fits_unused.
      destruct (Hpre k Hk) as [Hu|Hs].
      + unfold entry_useCount in Hu. rewrite Hv in Hu.
        apply andb_false_intro1. by apply Z.eqb_neq.
      + unfold entry_size in Hs. rewrite Hv in Hs.
        apply andb_false_intro2. by apply Z.leb_gt.
    - exact Hkey.
    - unfold fits_unused. apply andb_true_intro.
      split; [by apply Z.eqb_eq | by apply Z.leb_le]. }
  assert (Hks1 : _keys (cache w1) = pre ++ post).
  { unfold w1. rewrite erase_entry_keys.
    change (_keys (cache w0)) with (_keys (cache w)).
    rewrite Hks. apply delete_middle. }
  split; [exact Hget|]. split; [exact Hks1|].
  split; [reflexivity|]. split; [reflexivity|]. split; [reflexivity|].
  intros bytes Hread.
  assert (Hok : load_fetch L T reqKey w1 =
                (Returned (Some (length (heap w))), admitted T reqKey bytes w1)).
  { rewrite (load_fetch_ok L T reqKey w1 bytes).
    - unfold w1. by rewrite erase_entry_heap_length.
    - change (_imagePtrs (cache w1)) with (delete key (_imagePtrs (cache w))).
      rewrite lookup_delete_ne.
      + by apply Inv_unmapped.
      + intros ->. apply Hmiss. rewrite Hks. apply elem_of_app. right. left.
    - exact Hread. }
  rewrite Hget, Hok. cbn [snd].
  split; [reflexivity|]. split.
  - change (_keys (cache (admitted T reqKey bytes w1)))
      with (_keys (cache w1) ++ [reqKey]).
    by rewrite Hks1, app_assoc.
  - change (_imagePtrs (cache (admitted T reqKey bytes w1)))
      with (<[reqKey := CacheValue_wrap T (length (heap w1))]>
              (delete key (_imagePtrs (cache w)))).
    unfold w1. by rewrite erase_entry_heap_length.
Qed.

Lemma C2_single_victim_witness :
  entry_useCount scenarioC_state (reqKey_of PixUChar "p.png" 0) = 2 ∧
  entry_useCount scenarioC_state (reqKey_of PixUChar "q.png" 0) = 1 ∧
  _keys (cache scenarioC_state) =
    [reqKey_of PixUChar "p.png" 0; reqKey_of PixUChar "q.png" 0] ∧
  _keys (cache (get scenarioC_loader PixUChar "r.png" 0 scenarioC_state).2) =
    [reqKey_of PixUChar "p.png" 0; reqKey_of PixUChar "r.png" 0].
Proof.
  split; [vm_compute; reflexivity|]. split; [vm_compute; reflexivity|].
  split; [vm_compute; reflexivity|].
  destruct (C2_single_victim_first_fit scenarioC_loader PixUChar "r.png" 0
              scenarioC_state 3000 2000
              [reqKey_of PixUChar "p.png" 0] [] (reqKey_of PixUChar "q.png" 0)
              (CacheValue_wrap PixUChar 1))
    as (_ & _ & _ & _ & _ & H).
  - apply Inv_get_drop, Inv_get_keep, Inv_new.
  - vm_compute. intros H. apply list_elem_of_In in H.
    destruct H as [H|[H|[]]]; discriminate.
  - reflexivity.
  - vm_compute. reflexivity.
  - vm_compute. reflexivity.
  - intros k ->%list_elem_of_singleton. left. vm_compute. discriminate.
  - vm_compute. reflexivity.
  - vm_compute. reflexivity.
  - vm_compute. discriminate.
  - destruct (H 6000000) as (_ & H2 & _); [vm_compute; reflexivity|].
    exact H2.
Defined.

(** ** Eviction safety *)

(** C4. An entry that is resident before a call of [get] and is not
    resident after it had a use count of exactly 1 when the call was made:
    the cache was the only owner of its image and no caller held a handle
    of it. Both eviction passes are covered, and the use count of an entry
    does not change while [get] evicts other entries, so the count at the
    call is the count at the decision. *)
Theorem C4_eviction_spares_referenced
    (L : Loader) (T : PixType) (path : string) (level : Z) (w : World) (k : CacheKey) :
  Inv w →
  k ∈ _keys (cache w) →
  k ∉ _keys (cache (get L T path level w).2) →
  entry_useCount w k = 1 ∧
  ∀ p, holds (_imagePtrs (cache w)) p k → p ∉ handles w.
Proof.
  intros HI Hk Hgone.
  assert (Huse : entry_useCount w k = 1).
  { destruct (decide (reqKey_of T path level ∈ _keys (cache w))) as [Hin|Hnot].
    - exfalso. destruct (get_hit L T path level w Hin) as (i & Hi & Heq).
      rewrite Heq, fetch_cache in Hgone. apply Hgone.
      cbn [with_keys with_cache cache _keys].
      by rewrite (promote_perm _ _ _ Hi).
    - rewrite (get_miss L T path level w Hnot) in Hgone. cbv zeta in Hgone.
      destruct (readImageSize L path) as [[width height]|]; [|done].
      destruct (_ <=? _).
      + exfalso. by apply Hgone, load_fetch_keys_mono.
      + apply (admit_evicting_evicted L T _ _ (log_io (EvReadImageSize path) w) k)
          in Hgone; [done | by apply Inv_log_io | done]. }
  split; [done|]. intros p Hp. by eapply unreferenced_not_held.
Qed.

Lemma C4_eviction_witness :
  (reqKey_of PixUChar "q.png" 0 ∈ _keys (cache scenarioC_state)) ∧
  (reqKey_of PixUChar "q.png" 0
     ∉ _keys (cache (get scenarioC_loader PixUChar "r.png" 0 scenarioC_state).2)) ∧
  entry_useCount scenarioC_state (reqKey_of PixUChar "q.png" 0) = 1.
Proof.
  assert (H1 : reqKey_of PixUChar "q.png" 0 ∈ _keys (cache scenarioC_state)).
  { vm_compute. right. left. }
  assert (H2 : reqKey_of PixUChar "q.png" 0
               ∉ _keys (cache
                          (get scenarioC_loader PixUChar "r.png" 0 scenarioC_state).2)).
  { vm_compute. intros H. apply list_elem_of_In in H.
    destruct H as [H|[H|[]]]; discriminate. }
  split; [exact H1|]. split; [exact H2|].
  apply (C4_eviction_spares_referenced scenarioC_loader PixUChar "r.png" 0
           scenarioC_state (reqKey_of PixUChar "q.png" 0)).
  - apply Inv_get_drop, Inv_get_keep, Inv_new.
  - exact H1.
  - exact H2.
Defined.

(** ** Resource exhaustion *)

(** C5. On a miss that does not fit in the capacity and for which the
    first pass finds no victim, the second pass runs, and if
    [memSize + contentSize] still exceeds [maxSize] after it, [get] throws
    the not-enough-space error and leaves the state that the pass left
    (the image is admitted otherwise). The error is thrown in no other
    case. No entry is created and the loader is not asked for the image; the
    state left is consistent with the entries that remain, which are
    entries of the state before with their values, and the entries that
    are gone had a use count of 1: the evictions are kept. When every
    entry is referenced by a caller, a failing [get] leaves the cache as it
    was, and with [capacity <= maxSize] it does fail as soon as
    [memSize + contentSize] exceeds [maxSize]. *)
Theorem C5_resource_exhaustion
    (L : Loader) (T : PixType) (path : string) (level : Z) (w : World)
    (width height : Z) :
  Inv w →
  reqKey_of T path level ∉ _keys (cache w) →
  readImageSize L path = Some (width, height) →
  let reqKey := reqKey_of T path level in
  let memSize := required_memSize T width height level in
  let mu := _memUsage (cache w) in
  let w0 := log_io (EvReadImageSize path) w in
  let out := get L T path level w in
  (out.1 = Threw NotEnoughSpace →
     capacity mu < int_add memSize (contentSize mu) ∧
     maxSize mu < int_add memSize (contentSize (_memUsage (cache out.2))) ∧
     _imagePtrs (cache out.2) !! reqKey = None ∧
     (reqKey ∉ _keys (cache out.2)) ∧
     ioLog out.2 = ioLog w ++ [EvReadImageSize path] ∧
     Inv out.2 ∧
     (∀ k, k ∈ _keys (cache out.2) →
        k ∈ _keys (cache w) ∧
        _imagePtrs (cache out.2) !! k = _imagePtrs (cache w) !! k) ∧
     (∀ k, k ∈ _keys (cache w) → k ∉ _keys (cache out.2) → entry_useCount w k = 1)) ∧
  ((∀ k, k ∈ _keys (cache w) → entry_useCount w k ≠ 1) →
     (out.1 = Threw NotEnoughSpace → cache out.2 = cache w) ∧
     (capacity mu <= maxSize mu →
      maxSize mu < int_add memSize (contentSize mu) →
      out = (Threw NotEnoughSpace, w0))) ∧
  (capacity mu < int_add memSize (contentSize mu) →
   (∀ k v, k ∈ _keys (cache w) → _imagePtrs (cache w) !! k = Some v →
      useCount (heap w) v = 1 →
      memorySize (heap w) v < int_sub (int_add memSize (contentSize mu)) (capacity mu)) →
   ∃ w2,
     evict_loop (S (length (_keys (cache w))))
       (int_sub (int_add memSize (contentSize mu)) (capacity mu)) w0 = Some (None, w2) ∧
     Inv w2 ∧
     (∀ k, k ∈ _keys (cache w2) →
        k ∈ _keys (cache w) ∧ _imagePtrs (cache w2) !! k = _imagePtrs (cache w) !! k) ∧
     (∀ k, k ∈ _keys (cache w) → k ∉ _keys (cache w2) → entry_useCount w k = 1) ∧
     (0 < int_sub (int_add memSize (contentSize mu)) (capacity mu) →
      _keys (cache w2) = filter (λ k, entry_useCount w k ≠ 1) (_keys (cache w))) ∧
     (maxSize mu < int_add memSize (contentSize (_memUsage (cache w2))) →
      out = (Threw NotEnoughSpace, w2)) ∧
     (int_add memSize (contentSize (_memUsage (cache w2))) <= maxSize mu →
      out = load_fetch L T reqKey w2)).
Proof.
  intros HI Hmiss Hprobe. cbv zeta.
  pose proof (Inv_log_io (EvReadImageSize path) w HI) as HI0.
  rewrite (get_miss L T path level w Hmiss), Hprobe. cbv zeta.
  set (w0 := log_io (EvReadImageSize path) w) in *.
  set (memSize := required_memSize T width height level).
  split.
  - destruct (_ <=? _) eqn:Hfit;
      [by intros ?%load_fetch_not_exhausted|].
    apply Z.leb_gt in Hfit. intros Hthrew. split; [done|].
    unfold admit_evicting in *.
    destruct (scan_from (fits_unused _ _) _ _ _) as [i key value| |];
      [by apply load_fetch_not_exhausted in Hthrew | | done].
    destruct (evict_loop _ _ _) as [[r w2]|] eqn:Hloop; [|done].
    destruct (evict_loop_result _ _ _ _ _ HI0 Hloop)
      as (-> & HI2 & Hsub & Hgone & _ & Hio & _ & _ & Hmx).
    destruct (_ <=? _) eqn:Hfit2;
      [by apply load_fetch_not_exhausted in Hthrew|].
    apply Z.leb_gt in Hfit2. cbn [snd].
    assert (Hnot2 : reqKey_of T path level ∉ _keys (cache w2))
      by (intros Hin; by apply Hsub in Hin as [Hin _]).
    change (_memUsage (cache w0)) with (_memUsage (cache w)) in Hmx.
    split; [by rewrite <- Hmx|].
    split; [by apply Inv_unmapped|].
    split; [done|]. split; [exact Hio|]. split; [exact HI2|].
    split; [exact Hsub | exact Hgone].
  - split.
    { intros Hall.
      rewrite (admit_evicting_all_referenced L T _ memSize w0 HI0 Hall).
      change (_memUsage (cache w0)) with (_memUsage (cache w)).
      split.
      + destruct (_ <=? _); [by intros ?%load_fetch_not_exhausted|].
        destruct (_ <=? _); [by intros ?%load_fetch_not_exhausted|done].
      + intros Hle Hover.
        rewrite (proj2 (Z.leb_gt _ _)) by lia.
        by rewrite (proj2 (Z.leb_gt _ _)) by lia. }
    intros Hover Hnov. rewrite (proj2 (Z.leb_gt _ _) Hover).
    destruct (admit_evicting_second_pass L T (reqKey_of T path level) memSize w0 HI0)
      as (w2 & Hloop & Heq).
    { intros k v Hk Hv. unfold fits_unused.
      change (heap w0) with (heap w).
      change (_memUsage (cache w0)) with (_memUsage (cache w)).
      destruct (useCount (heap w) v =? 1) eqn:E; [|done].
      apply Z.eqb_eq in E. apply Z.leb_gt. by apply (Hnov k v). }
    destruct (evict_loop_result _ _ _ _ _ HI0 Hloop)
      as (_ & HI2 & Hsub & Hgone & _ & _ & _ & _ & Hmx).
    change (_memUsage (cache w0)) with (_memUsage (cache w)) in Hmx.
    exists w2. split; [exact Hloop|]. split; [exact HI2|].
    split; [exact Hsub|]. split; [exact Hgone|].
    split.
    { intros Hpos.
      by destruct (evict_loop_all _ _ _ _ _ HI0 Hpos Hloop) as (_ & _ & Hks & _). }
    rewrite Heq, Hmx. split.
    + intros Hex. by rewrite (proj2 (Z.leb_gt _ _) Hex).
    + intros Hle. by rewrite (proj2 (Z.leb_le _ _) Hle).
Qed.

Lemma C5_resource_exhaustion_witness :
  let out := get exhaustion_loader PixUChar "huge.png" 0 exhaustion_state in
  _keys (cache exhaustion_state) =
    [reqKey_of PixUChar "p.png" 0; reqKey_of PixUChar "q.png" 0] ∧
  out.1 = Threw NotEnoughSpace ∧
  _keys (cache out.2) = [reqKey_of PixUChar "p.png" 0] ∧
  _memUsage (cache out.2) =
    {| capacity := 10000000; maxSize := 15000000; nbImages := 1; contentSize := 6000000 |}.
Proof.
  cbv zeta. split; [vm_compute; reflexivity|].
  destruct (C5_resource_exhaustion exhaustion_loader PixUChar "huge.png" 0
              exhaustion_state 4000 3000) as (_ & _ & H).
  - apply Inv_get_drop, Inv_get_keep, Inv_new.
  - vm_compute. intros H. apply list_elem_of_In in H.
    destruct H as [H|[H|[]]]; discriminate.
  - reflexivity.
  - destruct H as (w2 & Hloop & _ & _ & _ & _ & Hthrow & _).
    + vm_compute. reflexivity.
    + intros k v Hk Hv Huse. apply list_elem_of_In in Hk. vm_compute in Hk.
      destruct Hk as [<-|[<-|[]]]; vm_compute in Hv; injection Hv as <-.
      * vm_compute in Huse. discriminate.
      * vm_compute. reflexivity.
    + vm_compute in Hloop. injection Hloop as <-.
      rewrite Hthrow by (vm_compute; reflexivity).
      repeat split; vm_compute; reflexivity.
Defined.

(** ** The invariant of the reachable states *)

(** C3 (as the code has it). In every state reached from a new cache by
    calls of [get], returned or thrown, and by callers copying and
    destroying their handles, the recency list has no duplicate and its
    keys are the keys of the map; the entry count is the number of mapped
    keys and the content size is the sum of the byte sizes of the resident
    values, both as [int]s, that is reduced modulo 2^32 into the signed
    range: they are the exact number and the exact sum whenever these fit
    in an [int]. *)
Theorem C3_reachable_accounting (capacity_MB maxSize_MB : Z) (w : World) :
  reachable capacity_MB maxSize_MB w →
  let c := cache w in
  NoDup (_keys c) ∧
  dom (_imagePtrs c) = list_to_set (_keys c) ∧
  nbImages (_memUsage c) = to_int (Z.of_nat (size (_imagePtrs c))) ∧
  contentSize (_memUsage c) = to_int (resident_bytes (heap w) (_imagePtrs c)) ∧
  (in_int (Z.of_nat (size (_imagePtrs c))) →
   nbImages (_memUsage c) = Z.of_nat (size (_imagePtrs c))) ∧
  (in_int (resident_bytes (heap w) (_imagePtrs c)) →
   contentSize (_memUsage c) = resident_bytes (heap w) (_imagePtrs c)).
Proof.
  intros HI%reachable_Inv. cbv zeta.
  pose proof (inv_nodup w HI) as Hnd.
  assert (Hn : nbImages (_memUsage (cache w)) =
               to_int (Z.of_nat (size (_imagePtrs (cache w)))))
    by (rewrite (Inv_size_keys w HI); apply (inv_count w HI)).
  assert (Hs : contentSize (_memUsage (cache w)) =
               to_int (resident_bytes (heap w) (_imagePtrs (cache w)))).
  { rewrite (resident_bytes_keys _ (_keys (cache w))); [apply (inv_size w HI)|done|].
    apply (inv_dom w HI). }
  split; [done|]. split; [by apply Inv_dom_keys|].
  split; [done|]. split; [done|].
  split; intros Hr; [rewrite Hn | rewrite Hs]; by apply to_int_id.
Qed.

Lemma overflow_state_reachable : reachable 2147 2147 overflow_state.
Proof. unfold overflow_state, get_keep. do 2 apply reach_get. apply reach_new. Qed.

Lemma C3_reachable_accounting_witness :
  contentSize (_memUsage (cache overflow_state)) =
  to_int (resident_bytes (heap overflow_state) (_imagePtrs (cache overflow_state))).
Proof.
  destruct (C3_reachable_accounting 2147 2147 overflow_state) as (_ & _ & _ & H & _).
  - unfold overflow_state, get_keep. do 2 apply reach_get. apply reach_new.
  - exact H.
Defined.

(** C3 as stated fails: after two images of 1,500,000,000 bytes are
    admitted to a cache of 2147 MB, the second one because the [int] sum
    [memSize + contentSize] has wrapped to a negative number, the content
    size is negative while 3,000,000,000 bytes are resident. *)
Lemma C3_content_size_counterexample :
  reachable 2147 2147 overflow_state ∧
  size (_imagePtrs (cache overflow_state)) = 2%nat ∧
  resident_bytes (heap overflow_state) (_imagePtrs (cache overflow_state)) = 3000000000 ∧
  contentSize (_memUsage (cache overflow_state)) = -1294967296 ∧
  contentSize (_memUsage (cache overflow_state)) ≠
    resident_bytes (heap overflow_state) (_imagePtrs (cache overflow_state)).
Proof.
  split; [apply overflow_state_reachable|].
  split; [vm_compute; reflexivity|].
  split; [vm_compute; reflexivity|].
  split; [vm_compute; reflexivity|].
  vm_compute. discriminate.
Qed.

(** ** Repeated requests *)

(** C6. When a call of [get] has returned an image, the same call made
    again at once is a hit: it returns the same image without any call to
    the loader, and it moves the key to the most recently used end again.
    Over the two calls the loader has read the image exactly once if the
    key was not cached before the first call (and not at all if it was),
    and the caller holds two handles of the one image. *)
Theorem C6_repeated_get_same_buffer
    (L L' : Loader) (T : PixType) (path : string) (level : Z)
    (w : World) (p : ptr) (w1 : World) :
  get L T path level w = (Returned (Some p), w1) →
  let out2 := get L' T path level w1 in
  out2.1 = Returned (Some p) ∧
  ioLog out2.2 = ioLog w1 ∧
  last (_keys (cache out2.2)) = Some (reqKey_of T path level) ∧
  _keys (cache out2.2) ≡ₚ _keys (cache w1) ∧
  _imagePtrs (cache out2.2) = _imagePtrs (cache w1) ∧
  _memUsage (cache out2.2) = _memUsage (cache w1) ∧
  handles out2.2 = p :: handles w1 ∧
  (∃ hs, handles w1 = p :: hs) ∧
  loads (ioLog out2.2) =
    loads (ioLog w) + (if decide (reqKey_of T path level ∈ _keys (cache w)) then 0 else 1).
Proof.
  intros Hget. cbv zeta.
  apply get_returned in Hget as (v & w0 & ks & -> & Hv & Hslot & Hks & Hloads).
  assert (Hin : reqKey_of T path level ∈ _keys (cache (copy_handle p w0))).
  { cbn [copy_handle cache]. rewrite Hks. apply elem_of_app. right. left. }
  destruct (get_hit L' T path level _ Hin) as (i & Hi & ->).
  unfold fetch. cbn [with_keys with_cache cache _imagePtrs copy_handle].
  rewrite Hv, Hslot. cbn [fst snd hand_out cache _keys ioLog handles copy_handle
    _imagePtrs _memUsage].
  split; [done|]. split; [done|]. split; [apply last_snoc|].
  split; [by apply promote_perm|].
  split; [done|]. split; [done|]. split; [done|].
  split; [by eexists|]. exact Hloads.
Qed.

Lemma C6_repeated_get_witness :
  let L := table_loader [("a.png"%string, (2000, 1000))] in
  let w := World_new 10 15 in
  let w1 := (get L PixRGB "a.png" 0 w).2 in
  (get L PixRGB "a.png" 0 w).1 = Returned (Some 0%nat) ∧
  (get L PixRGB "a.png" 0 w1).1 = Returned (Some 0%nat) ∧
  loads (ioLog (get L PixRGB "a.png" 0 w1).2) = 1.
Proof.
  cbv zeta.
  destruct (C6_repeated_get_same_buffer
              (table_loader [("a.png"%string, (2000, 1000))])
              (table_loader [("a.png"%string, (2000, 1000))])
              PixRGB "a.png" 0 (World_new 10 15) 0%nat
              (get (table_loader [("a.png"%string, (2000, 1000))])
                 PixRGB "a.png" 0 (World_new 10 15)).2)
    as (H1 & _ & _ & _ & _ & _ & _ & _ & H2).
  - vm_compute. reflexivity.
  - split; [vm_compute; reflexivity|]. split; [exact H1|].
    rewrite H2. vm_compute. reflexivity.
Defined.

(** ** Typed access on a hit *)

(** C10. In a reachable state, a call of [get<TPix>] whose key is in the
    recency list returns a pointer that is not null: the key is mapped to
    the value that wraps, for [TPix] itself, an allocated image, and this
    image is what the accessor of [TPix] returns. The channel count and the
    sample type of the key determine the pixel type, so the value was not
    made for another pixel type; the accessor of any other pixel type
    gives the empty slot. *)
Theorem C10_hit_returns_the_wrapped_image
    (capacity_MB maxSize_MB : Z) (L : Loader) (T : PixType) (path : string)
    (level : Z) (w : World) :
  reachable capacity_MB maxSize_MB w →
  reqKey_of T path level ∈ _keys (cache w) →
  (∀ T', ColorTypeInfo_size T' = ColorTypeInfo_size T →
         ColorTypeInfo_typeDesc T' = ColorTypeInfo_typeDesc T → T' = T) ∧
  ∃ p,
    (get L T path level w).1 = Returned (Some p) ∧
    _imagePtrs (cache w) !! reqKey_of T path level = Some (CacheValue_wrap T p) ∧
    is_Some (heap w !! p) ∧
    CacheValue_get T (CacheValue_wrap T p) = Some p ∧
    ∀ T', T' ≠ T → CacheValue_get T' (CacheValue_wrap T p) = None.
Proof.
  intros HI%reachable_Inv Hin.
  split; [intros T'; apply ColorTypeInfo_inj|].
  destruct (proj1 (inv_dom w HI _) Hin) as [v Hv].
  destruct (inv_typed w HI _ v Hv) as (T' & p & -> & Hn & Ht & Hp).
  assert (T = T') as <- by by apply ColorTypeInfo_inj.
  exists p.
  destruct (get_hit L T path level w Hin) as (i & Hi & ->).
  unfold fetch. cbn [with_keys with_cache cache _imagePtrs].
  rewrite Hv, CacheValue_get_wrap. cbn [fst].
  split; [done|]. split; [done|].
  split; [by apply lookup_lt_is_Some_2|].
  split; [done|].
  intros T'' Hne. by apply CacheValue_get_wrap_ne.
Qed.

Lemma C10_hit_witness :
  ∃ p, (get scenarioC_loader PixUChar "p.png" 0 scenarioC_state).1 = Returned (Some p).
Proof.
  destruct (C10_hit_returns_the_wrapped_image 10 15 scenarioC_loader PixUChar
              "p.png" 0 scenarioC_state) as [_ (p & H & _)].
  - apply reachable_get_drop, reachable_get_keep, reach_new.
  - vm_compute. left.
  - by exists p.
Defined.

(** ** The multi-victim pass *)

(** C1 (what the code does). The cache holds A, B and C, of 4,000,000,
    4,000,000 and 2,000,000 bytes, none of them referenced by a caller, and
    is full at its capacity of 10,000,000 bytes. A request for D needs
    5,000,000 bytes: the missing capacity is 5,000,000, no single entry
    covers it, and evicting A and B would. The loop never updates
    [missingCapacity], so it goes on until no unreferenced entry is left: C
    is evicted as well, and D is the only entry after the call. *)
Theorem C1_multi_victim_evicts_beyond_need :
  let A := reqKey_of PixUChar "a.png" 0 in
  let B := reqKey_of PixUChar "b.png" 0 in
  let C := reqKey_of PixUChar "c.png" 0 in
  let D := reqKey_of PixUChar "d.png" 0 in
  let w := multi_victim_state in
  let out := get multi_victim_loader PixUChar "d.png" 0 w in
  reachable 10 15 w ∧
  _keys (cache w) = [A; B; C] ∧
  map (entry_size (heap w) (_imagePtrs (cache w))) [A; B; C]
    = [4000000; 4000000; 2000000] ∧
  map (entry_useCount w) [A; B; C] = [1; 1; 1] ∧
  capacity (_memUsage (cache w)) = 10000000 ∧
  contentSize (_memUsage (cache w)) = 10000000 ∧
  required_memSize PixUChar 2500 2000 0 = 5000000 ∧
  out.1 = Returned (Some 3%nat) ∧
  _keys (cache out.2) = [D] ∧
  _imagePtrs (cache out.2) !! C = None ∧
  nbImages (_memUsage (cache out.2)) = 1 ∧
  contentSize (_memUsage (cache out.2)) = 5000000.
Proof.
  cbv zeta. split.
  { unfold multi_victim_state. do 3 apply reachable_get_drop. apply reach_new. }
  repeat split; vm_compute; reflexivity.
Qed.

(** * Further properties of the code *)

(** ** Keys *)

Lemma CacheKey_eqb_fields (k other : CacheKey) :
  CacheKey_eqb k other = true ↔
  filename k = filename other ∧ nbChannels k = nbChannels other ∧
  typeDesc k = typeDesc other ∧ halfSampleLevel k = halfSampleLevel other.
Proof.
  unfold CacheKey_eqb.
  rewrite !andb_true_iff, String.eqb_eq, !Z.eqb_eq, bool_decide_eq_true.
  tauto.
Qed.

(** X1. [operator==] holds exactly for identical keys, so the equality
    that [std::find] and the map use is the equality of keys; two requests
    for the same file are one entry only if they agree on the channel
    count, the sample type and the level. *)
Theorem X1_CacheKey_eqb_eq (k other : CacheKey) :
  (CacheKey_eqb k other = true ↔ k = other) ∧
  (CacheKey_eqb k other = false ↔
   filename k ≠ filename other ∨ nbChannels k ≠ nbChannels other ∨
   typeDesc k ≠ typeDesc other ∨ halfSampleLevel k ≠ halfSampleLevel other).
Proof.
  assert (Heq : CacheKey_eqb k other = true ↔ k = other).
  { rewrite CacheKey_eqb_fields. split.
    - destruct k, other. cbn. intros (-> & -> & -> & ->). done.
    - by intros ->. }
  split; [done|].
  rewrite <- not_true_iff_false, CacheKey_eqb_fields.
  destruct (decide (filename k = filename other));
    destruct (decide (nbChannels k = nbChannels other));
    destruct (decide (typeDesc k = typeDesc other));
    destruct (decide (halfSampleLevel k = halfSampleLevel other)); tauto.
Qed.

Lemma size_t_range (z : Z) : 0 <= to_size_t z < 2 ^ 64.
Proof. unfold to_size_t. apply Z.mod_pos_bound. lia. Qed.

Lemma lxor_size_t (a b : Z) :
  0 <= a < 2 ^ 64 → 0 <= b < 2 ^ 64 → 0 <= Z.lxor a b < 2 ^ 64.
Proof.
  intros Ha Hb. split; [apply Z.lxor_nonneg; lia|].
  destruct (decide (Z.lxor a b = 0)) as [->|Hne]; [lia|].
  assert (Hpos : 0 < Z.lxor a b) by (pose proof (proj2 (Z.lxor_nonneg a b)); lia).
  apply Z.log2_lt_pow2; [done|].
  pose proof (Z.log2_lxor a b ltac:(lia) ltac:(lia)) as Hlog.
  assert (Z.log2 a < 64).
  { destruct (decide (a = 0)) as [->|]; [done|]. apply Z.log2_lt_pow2; lia. }
  assert (Z.log2 b < 64).
  { destruct (decide (b = 0)) as [->|]; [done|]. apply Z.log2_lt_pow2; lia. }
  lia.
Qed.

(** X2. The hash of a key does not change when its channel count and its
    level are exchanged, whatever the hashes of the standard library are:
    the two shifted terms enter the same exclusive or. The requests
    [get<float>(f, 3)] and [get<RGBfColor>(f, 1)], for instance, always
    fall in the same bucket. Keys that are equal have the same hash, and
    the hash is a [std::size_t] when the hashes it combines are. *)
Theorem X2_CacheKeyHasher_swap
    (hash_string : string → Z) (hash_int : Z → Z) (BASETYPE_value : BASETYPE → Z)
    (key : CacheKey) :
  (∀ s, 0 <= hash_string s < 2 ^ 64) →
  (∀ i, 0 <= hash_int i < 2 ^ 64) →
  let hash := CacheKeyHasher hash_string hash_int BASETYPE_value in
  hash (swap_channels_level key) = hash key ∧
  0 <= hash key < 2 ^ 64 ∧
  hash (reqKey_of PixFloat (filename key) 3) = hash (reqKey_of PixRGBf (filename key) 1) ∧
  (reqKey_of PixFloat (filename key) 3 ≠ reqKey_of PixRGBf (filename key) 1).
Proof.
  intros Hs Hi. cbv zeta. unfold CacheKeyHasher. cbn.
  assert (Hswap : ∀ a b c d, Z.lxor (Z.lxor a b) (Z.lxor c d)
                             = Z.lxor (Z.lxor a d) (Z.lxor c b)).
  { intros a b c d.
    rewrite !Z.lxor_assoc. f_equal.
    rewrite (Z.lxor_comm c d), <- !Z.lxor_assoc, (Z.lxor_comm b d).
    rewrite !Z.lxor_assoc. f_equal. apply Z.lxor_comm. }
  split; [apply Hswap|].
  split.
  - apply lxor_size_t; apply lxor_size_t; auto; unfold size_t_shl1; apply size_t_range.
  - split; [apply Hswap | discriminate].
Qed.

Lemma X2_CacheKeyHasher_witness :
  CacheKeyHasher (λ s, to_size_t (Z.of_nat (String.length s))) (λ i, to_size_t i)
    (λ t, match t with UINT8 => 2 | FLOAT => 11 end)
    (reqKey_of PixFloat "a.png" 3) =
  CacheKeyHasher (λ s, to_size_t (Z.of_nat (String.length s))) (λ i, to_size_t i)
    (λ t, match t with UINT8 => 2 | FLOAT => 11 end)
    (reqKey_of PixRGBf "a.png" 1).
Proof.
  destruct (X2_CacheKeyHasher_swap (λ s, to_size_t (Z.of_nat (String.length s))) (λ i, to_size_t i)
              (λ t, match t with UINT8 => 2 | FLOAT => 11 end)
              (reqKey_of PixFloat "a.png" 3)) as (_ & _ & H & _).
  - intros s. apply size_t_range.
  - intros i. apply size_t_range.
  - exact H.
Defined.

(** ** The outcomes of [get] *)

Lemma load_fetch_outcome (L : Loader) (T : PixType) (key : CacheKey) (w : World) :
  _imagePtrs (cache w) !! key = None →
  (∃ p, (load_fetch L T key w).1 = Returned (Some p)) ∨
  (load_fetch L T key w).1 = Threw LoaderError.
Proof.
  intros Hnone.
  destruct (readImage L T (filename key) (int_shl 1 (halfSampleLevel key)))
    as [bytes|] eqn:Hread.
  - left. rewrite (load_fetch_ok L T key w bytes) by done. by eexists.
  - right. by rewrite load_fetch_fail.
Qed.

Lemma get_outcome_Inv (L : Loader) (T : PixType) (path : string) (level : Z) (w : World) :
  Inv w →
  (∃ p, (get L T path level w).1 = Returned (Some p)) ∨
  (get L T path level w).1 = Threw NotEnoughSpace ∨
  (get L T path level w).1 = Threw LoaderError.
Proof.
  intros HI.
  assert (Hload : ∀ w', Inv w' → reqKey_of T path level ∉ _keys (cache w') →
            (∃ p, (load_fetch L T (reqKey_of T path level) w').1 = Returned (Some p)) ∨
            (load_fetch L T (reqKey_of T path level) w').1 = Threw NotEnoughSpace ∨
            (load_fetch L T (reqKey_of T path level) w').1 = Threw LoaderError).
  { intros w' HI' Hnot.
    destruct (load_fetch_outcome L T _ w' (Inv_unmapped w' _ HI' Hnot)); auto. }
  destruct (decide (reqKey_of T path level ∈ _keys (cache w))) as [Hin|Hnot].
  - left. destruct (get_hit L T path level w Hin) as (i & Hi & ->).
    destruct (proj1 (inv_dom w HI _) Hin) as [v Hv].
    destruct (inv_typed w HI _ v Hv) as (T' & p & -> & Hn & Ht & Hp).
    assert (T = T') as <- by by apply ColorTypeInfo_inj.
    exists p. unfold fetch. cbn [with_keys with_cache cache _imagePtrs].
    by rewrite Hv, CacheValue_get_wrap.
  - rewrite (get_miss L T path level w Hnot). cbv zeta.
    pose proof (Inv_log_io (EvReadImageSize path) w HI) as HI0.
    destruct (readImageSize L path) as [[width height]|]; [|by right; right].
    destruct (_ <=? _); [by apply Hload|].
    unfold admit_evicting.
    destruct (scan_from (fits_unused _ _) _ _ _) as [i key value| |] eqn:Hscan.
    + apply scan_from_found in Hscan as (n & -> & Hn & Hm & _).
      apply Hload; [by apply Inv_erase_entry|].
      rewrite erase_entry_keys. intros Hin. by apply elem_of_delete in Hin.
    + destruct (evict_loop_fuel (S (length (_keys (cache (log_io (EvReadImageSize path) w)))))
                  (int_sub (int_add (required_memSize T width height level)
                     (contentSize (_memUsage (cache (log_io (EvReadImageSize path) w)))))
                     (capacity (_memUsage (cache (log_io (EvReadImageSize path) w)))))
                  (log_io (EvReadImageSize path) w)) as [[r w2] Hloop]; [lia|].
      rewrite Hloop.
      destruct (evict_loop_result _ _ _ _ _ HI0 Hloop) as (-> & HI2 & Hsub & _).
      destruct (_ <=? _); [|by right; left].
      apply Hload; [done|]. intros Hin. by apply Hsub in Hin as [Hin _].
    + by apply scan_from_Inv in Hscan.
Qed.

(** X3. In a reachable state a call of [get] has three outcomes: it
    returns a pointer that is not null, or it throws the not-enough-space
    error, or an exception of the loader goes through. It never returns
    [nullptr] and [_imagePtrs.at] never throws [std::out_of_range]. When it
    returns, the key of the request is the most recently used one and is
    mapped to the value that wraps the returned image for [TPix], and the
    image has at least two owners: the cache and the caller. *)
Theorem X3_get_outcomes
    (capacity_MB maxSize_MB : Z) (L : Loader) (T : PixType) (path : string)
    (level : Z) (w : World) :
  reachable capacity_MB maxSize_MB w →
  let out := get L T path level w in
  (∃ p b, out.1 = Returned (Some p) ∧
          last (_keys (cache out.2)) = Some (reqKey_of T path level) ∧
          _imagePtrs (cache out.2) !! reqKey_of T path level
            = Some (CacheValue_wrap T p) ∧
          heap out.2 !! p = Some b ∧ 2 <= use_count b ∧
          p ∈ handles out.2) ∨
  out.1 = Threw NotEnoughSpace ∨
  out.1 = Threw LoaderError.
Proof.
  intros HI%reachable_Inv. cbv zeta.
  pose proof (Inv_get L T path level w HI) as HI'.
  destruct (get_outcome_Inv L T path level w HI) as [[p Hp]|H]; [left | by right].
  destruct (get L T path level w) as [o w'] eqn:Hget. cbn [fst snd] in *. subst o.
  apply get_returned in Hget as (v & w1 & ks & -> & Hv & Hslot & Hks & _).
  change (cache (copy_handle p w1)) with (cache w1) in *.
  destruct (inv_typed _ HI' _ v Hv) as (T' & q & -> & Hn & Ht & Hq).
  assert (T = T') as <- by by apply ColorTypeInfo_inj.
  rewrite CacheValue_get_wrap in Hslot. injection Hslot as ->.
  destruct (lookup_lt_is_Some_2 _ _ Hq) as [b Hb].
  exists p, b. split; [done|].
  split; [rewrite Hks; apply last_snoc|].
  split; [done|]. split; [done|].
  assert (Hheld : p ∈ handles (copy_handle p w1)) by left.
  split; [|done].
  rewrite (inv_refs _ HI' p b Hb).
  pose proof (held_elem _ _ Hheld) as Hh.
  change (cache (copy_handle p w1)) with (cache w1).
  assert (1 <= owners (_imagePtrs (cache w1)) (_keys (cache w1)) p); [|lia].
  apply (owners_holder _ _ _ (reqKey_of T path level)).
  - rewrite Hks. apply elem_of_app. right. left.
  - unfold holds. rewrite Hv. cbn. apply CacheValue_ptr_wrap.
Qed.

Lemma X3_get_outcomes_witness :
  (get scenarioC_loader PixUChar "r.png" 0 all_held_state).1 = Threw NotEnoughSpace.
Proof.
  destruct (X3_get_outcomes 10 15 scenarioC_loader PixUChar "r.png" 0 all_held_state)
    as [(p & b & H & _)|[H|H]].
  - unfold all_held_state. do 2 apply reachable_get_keep. apply reach_new.
  - exfalso. vm_compute in H. discriminate.
  - exact H.
  - exfalso. vm_compute in H. discriminate.
Defined.

(** ** The hit path *)

(** X4. When the key of the request is in the recency list, [get] only
    moves it: the first occurrence of the key goes to the most recently
    used end and the other keys keep their order; the map, the counters of
    the memory usage and the images are as before and the loader is not
    called, not even for the size of the image. The value returned is the
    slot of [TPix] of the mapped value. *)
Theorem X4_hit_only_reorders
    (L : Loader) (T : PixType) (path : string) (level : Z) (w : World) :
  reqKey_of T path level ∈ _keys (cache w) →
  let reqKey := reqKey_of T path level in
  let out := get L T path level w in
  (∃ pre post,
     _keys (cache w) = pre ++ reqKey :: post ∧ (reqKey ∉ pre) ∧
     _keys (cache out.2) = pre ++ post ++ [reqKey]) ∧
  _imagePtrs (cache out.2) = _imagePtrs (cache w) ∧
  _memUsage (cache out.2) = _memUsage (cache w) ∧
  ioLog out.2 = ioLog w ∧
  out.1 = match _imagePtrs (cache w) !! reqKey with
          | Some value => Returned (CacheValue_get T value)
          | None => Threw OutOfRange
          end ∧
  (∀ p, out.1 = Returned (Some p) →
        heap out.2 = sp_copy p (heap w) ∧ handles out.2 = p :: handles w) ∧
  ((∀ p, out.1 ≠ Returned (Some p)) →
        heap out.2 = heap w ∧ handles out.2 = handles w).
Proof.
  intros Hin. cbv zeta.
  destruct (list_find_key_elem _ _ Hin) as [i Hfind].
  unfold get. rewrite Hfind.
  apply list_find_Some in Hfind as (Hi & _ & Hfirst).
  split.
  { exists (take i (_keys (cache w))), (drop (S i) (_keys (cache w))).
    split; [by rewrite take_drop_middle|]. split.
    - intros (j & Hj & Hlt)%elem_of_take. by apply (Hfirst j _ Hj).
    - rewrite fetch_cache. cbn [with_keys with_cache cache _keys].
      by rewrite delete_take_drop, app_assoc. }
  rewrite fetch_cache. cbn [with_keys with_cache cache _keys _imagePtrs _memUsage].
  split; [done|]. split; [done|].
  unfold fetch. cbn [with_keys with_cache cache _imagePtrs].
  destruct (_imagePtrs (cache w) !! reqKey_of T path level) as [value|].
  - cbn [fst snd]. destruct (CacheValue_get T value) as [q|]; cbn [hand_out].
    + split; [done|]. split; [done|]. split; [by intros p [= <-]|].
      intros Hno. by destruct (Hno q).
    + split; [done|]. split; [done|]. split; [by intros p [=]|done].
  - cbn [fst snd]. split; [done|]. split; [done|]. split; [by intros p [=]|done].
Qed.

Lemma X4_hit_witness :
  _keys (cache scenarioC_state) =
    [reqKey_of PixUChar "p.png" 0; reqKey_of PixUChar "q.png" 0] ∧
  _keys (cache (get scenarioC_loader PixUChar "p.png" 0 scenarioC_state).2) =
    [reqKey_of PixUChar "q.png" 0; reqKey_of PixUChar "p.png" 0] ∧
  ioLog (get scenarioC_loader PixUChar "p.png" 0 scenarioC_state).2 = ioLog scenarioC_state.
Proof.
  destruct (X4_hit_only_reorders scenarioC_loader PixUChar "p.png" 0 scenarioC_state)
    as (_ & _ & _ & H & _).
  - vm_compute. left.
  - split; [vm_compute; reflexivity|]. split; [vm_compute; reflexivity|]. exact H.
Defined.

(** ** Failures of the loader *)

Lemma load_fetch_threw (L : Loader) (T : PixType) (key : CacheKey) (w : World) :
  _imagePtrs (cache w) !! key = None →
  (load_fetch L T key w).1 = Threw LoaderError →
  (load_fetch L T key w).2 = log_io (EvReadImage (filename key)) w.
Proof.
  intros Hnone.
  destruct (readImage L T (filename key) (int_shl 1 (halfSampleLevel key)))
    as [bytes|] eqn:Hread.
  - by rewrite (load_fetch_ok L T key w bytes).
  - by rewrite load_fetch_fail.
Qed.

(** X5. When an exception of the loader goes through [get] on a miss, no
    entry is created for the request and the callers' handles are as
    before, and the state is consistent; but the evictions made before the
    image was read are kept: an entry that is gone had a use count of 1,
    and the entries that remain have their values. When it is the probe
    of the size that fails, or the read of an image that fitted in the
    capacity, the cache is exactly as before. *)
Theorem X5_loader_failure_keeps_evictions
    (L : Loader) (T : PixType) (path : string) (level : Z) (w : World) :
  Inv w →
  reqKey_of T path level ∉ _keys (cache w) →
  (get L T path level w).1 = Threw LoaderError →
  let reqKey := reqKey_of T path level in
  let out := get L T path level w in
  _imagePtrs (cache out.2) !! reqKey = None ∧
  (reqKey ∉ _keys (cache out.2)) ∧
  Inv out.2 ∧
  handles out.2 = handles w ∧
  (∀ k, k ∈ _keys (cache out.2) →
     k ∈ _keys (cache w) ∧ _imagePtrs (cache out.2) !! k = _imagePtrs (cache w) !! k) ∧
  (∀ k, k ∈ _keys (cache w) → k ∉ _keys (cache out.2) → entry_useCount w k = 1) ∧
  (readImageSize L path = None → cache out.2 = cache w) ∧
  (∀ width height,
     readImageSize L path = Some (width, height) →
     int_add (required_memSize T width height level) (contentSize (_memUsage (cache w)))
       <= capacity (_memUsage (cache w)) →
     cache out.2 = cache w).
Proof.
  intros HI Hmiss Hthrew. cbv zeta.
  pose proof (Inv_get L T path level w HI) as HI'.
  pose proof (get_frame L T path level w HI) as [Hframe _].
  assert (Hmain : (reqKey_of T path level ∉ _keys (cache (get L T path level w).2)) ∧
                  handles (get L T path level w).2 = handles w ∧
                  (readImageSize L path = None → cache (get L T path level w).2 = cache w) ∧
                  (∀ width height,
                     readImageSize L path = Some (width, height) →
                     int_add (required_memSize T width height level)
                       (contentSize (_memUsage (cache w)))
                       <= capacity (_memUsage (cache w)) →
                     cache (get L T path level w).2 = cache w)).
  { rewrite (get_miss L T path level w Hmiss) in *. cbv zeta in *.
    pose proof (Inv_log_io (EvReadImageSize path) w HI) as HI0.
    set (w0 := log_io (EvReadImageSize path) w) in *.
    destruct (readImageSize L path) as [[width height]|]; [|done].
    destruct (_ <=? _) eqn:Hfit.
    - rewrite load_fetch_threw; [|by apply Inv_unmapped|done].
      split; [done|]. split; [done|]. split; [done|]. done.
    - apply Z.leb_gt in Hfit.
      assert (Hlast : ∀ w', Inv w' → reqKey_of T path level ∉ _keys (cache w') →
                handles w' = handles w0 →
                (load_fetch L T (reqKey_of T path level) w').1 = Threw LoaderError →
                (reqKey_of T path level
                   ∉ _keys (cache (load_fetch L T (reqKey_of T path level) w').2)) ∧
                handles (load_fetch L T (reqKey_of T path level) w').2 = handles w).
      { intros w' HIw Hnot Hh Hthr.
        rewrite load_fetch_threw; [|by apply Inv_unmapped|done]. by split. }
      unfold admit_evicting in *.
      destruct (scan_from (fits_unused _ _) _ _ _) as [i key value| |] eqn:Hscan.
      + apply scan_from_found in Hscan as (n & -> & Hn & Hm & _).
        destruct (Hlast (erase_entry (0 + n) key value w0)) as [H1 H2];
          [by apply Inv_erase_entry | | done | done |].
        { rewrite erase_entry_keys. intros Hin. by apply elem_of_delete in Hin. }
        split; [done|]. split; [done|]. split; [done|].
        intros ? ? [= <- <-] ?. lia.
      + destruct (evict_loop _ _ _) as [[r w2]|] eqn:Hloop; [|done].
        destruct (evict_loop_result _ _ _ _ _ HI0 Hloop)
          as (-> & HI2 & Hsub & _ & Hh & _).
        destruct (_ <=? _); [|done].
        destruct (Hlast w2) as [H1 H2]; [done | | done | done |].
        { intros Hin. by apply Hsub in Hin as [Hin _]. }
        split; [done|]. split; [done|]. split; [done|].
        intros ? ? [= <- <-] ?. lia.
      + done. }
  destruct Hmain as (Hnot & Hh & Hprobe & Hdirect).
  split; [by apply Inv_unmapped|]. split; [done|]. split; [done|]. split; [done|].
  split.
  { intros k Hk. apply Hframe; [|done]. by intros ->. }
  split; [intros k Hk Hgone; by eapply get_evicted_useCount|].
  split; done.
Qed.

Lemma X5_loader_failure_witness :
  (get unreadable_loader PixUChar "r.png" 0 scenarioC_state).1 = Threw LoaderError ∧
  _keys (cache scenarioC_state) =
    [reqKey_of PixUChar "p.png" 0; reqKey_of PixUChar "q.png" 0] ∧
  _keys (cache (get unreadable_loader PixUChar "r.png" 0 scenarioC_state).2) =
    [reqKey_of PixUChar "p.png" 0] ∧
  Inv (get unreadable_loader PixUChar "r.png" 0 scenarioC_state).2.
Proof.
  assert (H : (get unreadable_loader PixUChar "r.png" 0 scenarioC_state).1
              = Threw LoaderError) by (vm_compute; reflexivity).
  destruct (X5_loader_failure_keeps_evictions unreadable_loader PixUChar "r.png" 0
              scenarioC_state) as (_ & _ & HI & _).
  - apply Inv_get_drop, Inv_get_keep, Inv_new.
  - vm_compute. intros Hin. apply list_elem_of_In in Hin.
    destruct Hin as [Hin|[Hin|[]]]; discriminate.
  - exact H.
  - split; [exact H|]. split; [vm_compute; reflexivity|].
    split; [vm_compute; reflexivity | exact HI].
Defined.

(** ** Images that callers hold *)

Lemma pinned_step (L : Loader) (T : PixType) (path : string) (level : Z) (w : World)
    (k : CacheKey) (v : CacheValue) (p : ptr) :
  Inv w →
  _imagePtrs (cache w) !! k = Some v →
  CacheValue_ptr v = Some p →
  p ∈ handles w →
  _imagePtrs (cache (get L T path level w).2) !! k = Some v ∧
  p ∈ handles (get L T path level w).2.
Proof.
  intros HI Hv Hptr Hp.
  assert (Hk : k ∈ _keys (cache w)) by (apply (inv_dom w HI); by eexists).
  destruct (get_frame L T path level w HI) as [Hframe Hhandles].
  split; [|by apply Hhandles].
  destruct (decide (k = reqKey_of T path level)) as [->|Hne].
  - destruct (get_hit L T path level w Hk) as (i & Hi & ->).
    by rewrite fetch_cache.
  - destruct (decide (k ∈ _keys (cache (get L T path level w).2))) as [Hin|Hgone].
    + destruct (Hframe k Hne Hin) as [_ ->]. done.
    + exfalso.
      pose proof (get_evicted_useCount L T path level w k HI Hk Hgone) as Huse.
      apply (unreferenced_not_held w k p HI Hk Huse); [|done].
      unfold holds. by rewrite Hv.
Qed.

(** X7. An image that a caller holds stays in the cache: whatever calls of
    [get] are made, returned or thrown, with whatever loader, the key of
    the image is still mapped to the same value and the caller still has
    its handle, so that a later request for this key is a hit on the same
    image. *)
Theorem X7_held_image_stays_cached
    (rs : list Request) (w : World) (k : CacheKey) (v : CacheValue) (p : ptr) :
  Inv w →
  _imagePtrs (cache w) !! k = Some v →
  CacheValue_ptr v = Some p →
  p ∈ handles w →
  Inv (get_all rs w) ∧
  k ∈ _keys (cache (get_all rs w)) ∧
  _imagePtrs (cache (get_all rs w)) !! k = Some v ∧
  p ∈ handles (get_all rs w).
Proof.
  revert w. induction rs as [|r rs IH]; intros w HI Hv Hptr Hp; cbn [get_all].
  - split; [done|]. split; [|done]. apply (inv_dom w HI). by eexists.
  - destruct (pinned_step (req_loader r) (req_pix r) (req_path r) (req_level r)
                w k v p HI Hv Hptr Hp) as [Hv' Hp'].
    apply IH; [by apply Inv_get | done..].
Qed.

Lemma X7_held_image_witness :
  let P := reqKey_of PixUChar "p.png" 0 in
  let rs := [mkRequest scenarioC_loader PixUChar "r.png" 0;
             mkRequest scenarioC_loader PixUChar "q.png" 0;
             mkRequest scenarioC_loader PixRGB "r.png" 1] in
  _imagePtrs (cache (get_all rs scenarioC_state)) !! P = Some (CacheValue_wrap PixUChar 0).
Proof.
  cbv zeta.
  apply (X7_held_image_stays_cached _ scenarioC_state
           (reqKey_of PixUChar "p.png" 0) (CacheValue_wrap PixUChar 0) 0%nat).
  - apply Inv_get_drop, Inv_get_keep, Inv_new.
  - vm_compute. reflexivity.
  - reflexivity.
  - vm_compute. left.
Defined.

(** ** The thresholds *)

Lemma memorySize_range (h : list Block) (v : CacheValue) : in_int (memorySize h v).
Proof.
  unfold memorySize.
  destruct (CacheValue_ptr v) as [p|]; [|by vm_compute].
  destruct (h !! p); [apply to_int_range | by vm_compute].
Qed.

Lemma admitted_contentSize (T : PixType) (key : CacheKey) (bytes : Z) (w : World) :
  contentSize (_memUsage (cache (admitted T key bytes w))) =
  int_add (contentSize (_memUsage (cache w))) (to_int bytes).
Proof. done. Qed.

Lemma single_victim_arith (M C K V : Z) :
  in_int V → 0 <= K → 0 <= C → 0 <= M → in_int (M + C) →
  K < int_add M C →
  int_sub (int_add M C) K <= V →
  int_add (int_sub C V) M <= K.
Proof.
  unfold in_int, int_min, int_max, int_add, int_sub.
  intros HV HK HC HM Hsum.
  rewrite (to_int_id (M + C)) by (unfold in_int, int_min, int_max; lia).
  intros Hfit.
  rewrite (to_int_id (M + C - K)) by (unfold in_int, int_min, int_max; lia).
  intros HP.
  rewrite (to_int_id (C - V)) by (unfold in_int, int_min, int_max; lia).
  rewrite (to_int_id (C - V + M)) by (unfold in_int, int_min, int_max; lia).
  lia.
Qed.

(** X6. When [get] admits an image whose size, once read, is the size
    computed from its dimensions, the content size after the call is within
    the thresholds: at most [capacity] when the image fitted or a single
    victim made room for it, at most [maxSize] when it was admitted after
    the second pass. The arithmetic of the single-victim pass is exact
    under the conditions stated: a capacity, a content size and a required
    size that are not negative, and a sum [memSize + contentSize] that fits
    in an [int]. *)
Theorem X6_admission_within_thresholds
    (L : Loader) (T : PixType) (path : string) (level : Z) (w : World)
    (width height bytes : Z) (p : ptr) (w' : World) :
  Inv w →
  reqKey_of T path level ∉ _keys (cache w) →
  readImageSize L path = Some (width, height) →
  readImage L T path (int_shl 1 level) = Some bytes →
  to_int bytes = required_memSize T width height level →
  0 <= capacity (_memUsage (cache w)) →
  0 <= contentSize (_memUsage (cache w)) →
  0 <= required_memSize T width height level →
  in_int (required_memSize T width height level + contentSize (_memUsage (cache w))) →
  get L T path level w = (Returned (Some p), w') →
  let mu := _memUsage (cache w) in
  let memSize := required_memSize T width height level in
  let missing := int_sub (int_add memSize (contentSize mu)) (capacity mu) in
  contentSize (_memUsage (cache w')) <= Z.max (capacity mu) (maxSize mu) ∧
  (int_add memSize (contentSize mu) <= capacity mu →
   contentSize (_memUsage (cache w')) <= capacity mu) ∧
  (capacity mu < int_add memSize (contentSize mu) →
   (∃ k v, k ∈ _keys (cache w) ∧ _imagePtrs (cache w) !! k = Some v ∧
           useCount (heap w) v = 1 ∧ missing <= memorySize (heap w) v) →
   contentSize (_memUsage (cache w')) <= capacity mu) ∧
  (capacity mu < int_add memSize (contentSize mu) →
   (∀ k v, k ∈ _keys (cache w) → _imagePtrs (cache w) !! k = Some v →
           useCount (heap w) v = 1 → memorySize (heap w) v < missing) →
   contentSize (_memUsage (cache w')) <= maxSize mu).
Proof.
  intros HI Hmiss Hprobe Hread Hbytes Hcap Hcs Hmem Hsum Hget. cbv zeta.
  rewrite (get_miss L T path level w Hmiss), Hprobe in Hget. cbv zeta in Hget.
  pose proof (Inv_log_io (EvReadImageSize path) w HI) as HI0.
  set (w0 := log_io (EvReadImageSize path) w) in *.
  set (M := required_memSize T width height level) in *.
  assert (Hadmit : ∀ w1, Inv w1 → reqKey_of T path level ∉ _keys (cache w1) →
            load_fetch L T (reqKey_of T path level) w1 = (Returned (Some p), w') →
            contentSize (_memUsage (cache w')) =
            int_add (contentSize (_memUsage (cache w1))) M).
  { intros w1 HI1 Hnot Hlf.
    rewrite (load_fetch_ok L T _ w1 bytes) in Hlf; [|by apply Inv_unmapped|done].
    injection Hlf as _ <-. by rewrite admitted_contentSize, Hbytes. }
  assert (Hcomm : ∀ a b, int_add a b = int_add b a)
    by (intros; unfold int_add; f_equal; lia).
  change (_memUsage (cache w0)) with (_memUsage (cache w)) in Hget.
  destruct (_ <=? _) eqn:Hfit.
  - apply Z.leb_le in Hfit.
    assert (Hle : contentSize (_memUsage (cache w')) <= capacity (_memUsage (cache w))).
    { rewrite (Hadmit w0 HI0 Hmiss Hget), Hcomm.
      by change (_memUsage (cache w0)) with (_memUsage (cache w)). }
    split; [lia|]. split; [done|]. split; intros; lia.
  - apply Z.leb_gt in Hfit. unfold admit_evicting in Hget.
    change (_memUsage (cache w0)) with (_memUsage (cache w)) in Hget.
    change (heap w0) with (heap w) in Hget.
    change (_imagePtrs (cache w0)) with (_imagePtrs (cache w)) in Hget.
    change (_keys (cache w0)) with (_keys (cache w)) in Hget.
    destruct (scan_from (fits_unused _ _) _ _ _) as [i key value| |] eqn:Hscan.
    + apply scan_from_found in Hscan as (n & -> & Hn & Hm & HP & _).
      unfold fits_unused in HP. apply andb_prop in HP as [HP1 HP2].
      apply Z.eqb_eq in HP1. apply Z.leb_le in HP2.
      assert (Hle : contentSize (_memUsage (cache w')) <= capacity (_memUsage (cache w))).
      { rewrite (Hadmit _ (Inv_erase_entry (0 + n) key value w0 Hn Hm HI0)) by
          (try done; rewrite erase_entry_keys; intros Hin; by apply elem_of_delete in Hin).
        cbn [erase_entry cache _memUsage contentSize].
        change (heap w0) with (heap w).
        change (_memUsage (cache w0)) with (_memUsage (cache w)).
        apply (single_victim_arith M _ _ _ (memorySize_range _ _) Hcap Hcs Hmem Hsum
                 Hfit HP2). }
      split; [lia|]. split; [done|]. split; [done|].
      intros _ Hnov. exfalso.
      assert (Hkey : key ∈ _keys (cache w)) by by eapply list_elem_of_lookup_2.
      pose proof (Hnov key value Hkey Hm HP1). lia.
    + destruct (evict_loop _ _ _) as [[r w2]|] eqn:Hloop; [|done].
      destruct (evict_loop_result _ _ _ _ _ HI0 Hloop)
        as (-> & HI2 & Hsub & _ & _ & _ & _ & _ & Hmx).
      change (_memUsage (cache w0)) with (_memUsage (cache w)) in Hmx.
      destruct (_ <=? _) eqn:Hfit2; [|done].
      apply Z.leb_le in Hfit2.
      assert (Hle : contentSize (_memUsage (cache w')) <= maxSize (_memUsage (cache w))).
      { rewrite (Hadmit w2 HI2) by
          (try done; intros Hin; by apply Hsub in Hin as [Hin _]).
        rewrite Hcomm. lia. }
      split; [lia|]. split; [intros; lia|]. split; [|done].
      intros _ (k & v & Hk & Hv & Huse & Hsize). exfalso.
      apply (scan_from_exists _ w k v Hk Hv) in Hscan; [done|].
      unfold fits_unused. apply andb_true_intro.
      split; [by apply Z.eqb_eq | by apply Z.leb_le].
    + done.
Qed.

Lemma X6_admission_witness :
  contentSize (_memUsage (cache (get scenarioA_loader PixUChar "y.png" 0 scenarioA_state).2))
    <= 10000000 ∧
  _memUsage (cache (get scenarioA_loader PixUChar "y.png" 0 scenarioA_state).2) =
    {| capacity := 10000000; maxSize := 15000000; nbImages := 1; contentSize := 5000000 |}.
Proof.
  split; [|vm_compute; reflexivity].
  destruct (X6_admission_within_thresholds scenarioA_loader PixUChar "y.png" 0
              scenarioA_state 2500 2000 5000000 1%nat
              (get scenarioA_loader PixUChar "y.png" 0 scenarioA_state).2)
    as (_ & _ & H & _).
  - apply Inv_get_drop, Inv_new.
  - vm_compute. intros Hin. apply list_elem_of_In in Hin.
    destruct Hin as [Hin|[]]; discriminate.
  - reflexivity.
  - reflexivity.
  - vm_compute. reflexivity.
  - vm_compute. discriminate.
  - vm_compute. discriminate.
  - vm_compute. discriminate.
  - vm_compute. split; discriminate.
  - vm_compute. reflexivity.
  - apply H.
    + vm_compute. reflexivity.
    + exists (reqKey_of PixUChar "x.png" 0), (CacheValue_wrap PixUChar 0).
      split; [vm_compute; left|]. split; [vm_compute; reflexivity|].
      split; [vm_compute; reflexivity | vm_compute; discriminate].
Defined.

(** ** The required size *)

(** X8. For dimensions that are not negative and a level between 0 and 30,
    the size that [get] requires is never more than the size of the image
    at full resolution, when that size fits in an [int]; it is exactly that
    size at level 0, and it is 0 as soon as [2^level] exceeds the width or
    the height, in which case the request fits in any cache that is not
    over its capacity. *)
Theorem X8_required_size_bounds (T : PixType) (width height level : Z) :
  0 <= width → 0 <= height → 0 <= level < 31 →
  in_int (width * height * sizeof T) →
  0 <= required_memSize T width height level <= width * height * sizeof T ∧
  required_memSize T width height 0 = width * height * sizeof T ∧
  (width < 2 ^ level ∨ height < 2 ^ level → required_memSize T width height level = 0).
Proof.
  intros Hw Hh Hl Hfull.
  assert (Hs : 1 <= sizeof T) by (destruct T; vm_compute; discriminate).
  assert (Hdiv : ∀ x l, 0 <= x → 0 <= l < 31 →
            Z.quot x (int_shl 1 l) = x / 2 ^ l ∧ 0 <= x / 2 ^ l <= x).
  { intros x l Hx Hl'. rewrite quot_downscale, Z.shiftr_div_pow2 by lia.
    split; [done|]. split; [apply Z.div_pos; lia|].
    apply Z.div_le_upper_bound; [lia|]. assert (1 <= 2 ^ l) by lia. nia. }
  assert (Hmem : ∀ l, 0 <= l < 31 →
            required_memSize T width height l
            = width / 2 ^ l * (height / 2 ^ l) * sizeof T ∧
            0 <= width / 2 ^ l * (height / 2 ^ l) * sizeof T
              <= width * height * sizeof T).
  { intros l Hl'. rewrite required_memSize_wrap.
    destruct (Hdiv width l Hw Hl') as [-> [Ha1 Ha2]].
    destruct (Hdiv height l Hh Hl') as [-> [Hb1 Hb2]].
    assert (0 <= width / 2 ^ l * (height / 2 ^ l) <= width * height) by nia.
    assert (Hr : 0 <= width / 2 ^ l * (height / 2 ^ l) * sizeof T
                 <= width * height * sizeof T) by nia.
    split; [|done]. apply to_int_id.
    unfold in_int, int_min, int_max in *. lia. }
  destruct (Hmem level Hl) as [Heq Hr].
  split; [by rewrite Heq|]. split.
  - destruct (Hmem 0) as [-> _]; [lia|]. by rewrite Z.pow_0_r, !Z.div_1_r.
  - rewrite Heq.
    intros [Hlt|Hlt];
      [rewrite (Z.div_small width) by lia | rewrite (Z.div_small height) by lia]; lia.
Qed.

Lemma X8_required_size_witness :
  required_memSize PixRGBAf 4000 3000 0 = 192000000 ∧
  required_memSize PixRGBAf 4000 3000 12 = 0 ∧
  0 <= required_memSize PixRGBAf 4000 3000 3 <= 192000000.
Proof.
  destruct (X8_required_size_bounds PixRGBAf 4000 3000 3) as (H1 & H2 & _);
    [lia | lia | lia | vm_compute; split; discriminate |].
  destruct (X8_required_size_bounds PixRGBAf 4000 3000 12) as (_ & _ & H3);
    [lia | lia | lia | vm_compute; split; discriminate |].
  split; [exact H2|]. split; [apply H3; left; lia | exact H1].
Defined.

(** ** Reference counts *)

(** X9. In a reachable state every resident value wraps exactly one image:
    the slot of one pixel type, the one that the key names, holds an
    allocated image and the five others are null. The use count of the
    image is 1, for the cache, plus the number of handles that callers
    hold, so that [useCount() == 1] means that no caller holds the image;
    and no two entries share an image. *)
Theorem X9_resident_values
    (capacity_MB maxSize_MB : Z) (w : World) (k : CacheKey) (v : CacheValue) :
  reachable capacity_MB maxSize_MB w →
  _imagePtrs (cache w) !! k = Some v →
  ∃ T p,
    (∀ T', CacheValue_get T' v = if decide (T' = T) then Some p else None) ∧
    nbChannels k = ColorTypeInfo_size T ∧
    typeDesc k = ColorTypeInfo_typeDesc T ∧
    is_Some (heap w !! p) ∧
    useCount (heap w) v = 1 + held (handles w) p ∧
    (useCount (heap w) v = 1 ↔ p ∉ handles w) ∧
    ∀ k' v', _imagePtrs (cache w) !! k' = Some v' → CacheValue_ptr v' = Some p → k' = k.
Proof.
  intros HI%reachable_Inv Hv.
  destruct (inv_typed w HI k v Hv) as (T & p & -> & Hn & Ht & Hp).
  destruct (lookup_lt_is_Some_2 _ _ Hp) as [b Hb].
  assert (Hk : k ∈ _keys (cache w)) by (apply (inv_dom w HI); by eexists).
  assert (Hholds : holds (_imagePtrs (cache w)) p k)
    by (unfold holds; rewrite Hv; apply CacheValue_ptr_wrap).
  assert (Hown : owners (_imagePtrs (cache w)) (_keys (cache w)) p = 1).
  { destruct (delete_split_elem _ _ Hk) as (l1 & l2 & Heq).
    pose proof (inv_nodup w HI) as Hnd. rewrite Heq in Hnd.
    apply NoDup_app in Hnd as (_ & Ha & Hb'). apply NoDup_cons in Hb' as [Hb' _].
    unfold owners. rewrite Heq, sum_over_app. cbn [sum_over foldr].
    fold (sum_over (λ k0, if decide (holds (_imagePtrs (cache w)) p k0) then 1 else 0) l2).
    rewrite decide_True by done.
    rewrite !sum_over_zero; [done | |].
    - intros k' Hk'. rewrite decide_False; [done|]. intros Hh.
      rewrite (inv_distinct w HI k' k p Hh Hholds) in Hk'. done.
    - intros k' Hk'. rewrite decide_False; [done|]. intros Hh.
      rewrite (inv_distinct w HI k' k p Hh Hholds) in Hk'. by apply (Ha k Hk'); left. }
  assert (Huse : useCount (heap w) (CacheValue_wrap T p) = 1 + held (handles w) p).
  { rewrite (useCount_wrap _ _ _ b Hb), (inv_refs w HI p b Hb), Hown. done. }
  exists T, p.
  split; [intros T'; rewrite CacheValue_get_wrap_cases;
          destruct (decide (T = T')), (decide (T' = T)); congruence|].
  split; [done|]. split; [done|]. split; [by eexists|]. split; [done|].
  split.
  - rewrite Huse. split.
    + intros H1 Hin. pose proof (held_elem _ _ Hin). lia.
    + intros Hnot. assert (held (handles w) p = 0); [|lia].
      unfold held. apply sum_over_zero. intros q Hq.
      rewrite decide_False; [done|]. by intros ->.
  - intros k' v' Hv' Hptr. apply (inv_distinct w HI k' k p); [|done].
    unfold holds. by rewrite Hv'.
Qed.

Lemma X9_resident_values_witness :
  ∃ p, is_Some (heap scenarioC_state !! p) ∧
       useCount (heap scenarioC_state) (CacheValue_wrap PixUChar 0)
       = 1 + held (handles scenarioC_state) p.
Proof.
  destruct (X9_resident_values 10 15 scenarioC_state (reqKey_of PixUChar "p.png" 0)
              (CacheValue_wrap PixUChar 0)) as (T & p & _ & _ & _ & H1 & H2 & _).
  - apply reachable_get_drop, reachable_get_keep, reach_new.
  - vm_compute. reflexivity.
  - exists p. split; [exact H1 | exact H2].
Defined.
